(** * A shallow embedding of the multi-agent debate system

    Python strings are modelled as [String.string] over ASCII characters
    (text outside ASCII is out of the model).  Python's Unicode whitespace
    restricted to ASCII is the set [\t \n \x0b \x0c \r \x1c-\x1f ' '];
    [str.split()], [str.strip()] and the regex class [\s] all use it. *)

From Stdlib Require Import String Ascii List Arith Lia ZArith Bool.
From Stdlib Require QArith Qminmax.
Import ListNotations.
Open Scope string_scope.

(* ================================================================== *)
(** ** src/utils.py: text helpers *)

Module Text.

Definition nl : ascii := "010"%char.
Definition cr : ascii := "013"%char.
Definition sp : ascii := " "%char.
Definition dot : ascii := "."%char.

(** Python's [str.isspace] on ASCII characters. *)
Definition is_space (c : ascii) : bool :=
  let n := nat_of_ascii c in
  (Nat.leb 9 n && Nat.leb n 13) || (Nat.leb 28 n && Nat.leb n 32).

(** [str.split()] with no argument: runs of whitespace separate words,
    empty words are dropped.  [cur] is the word being read. *)
Fixpoint split_aux (cur : string) (s : string) : list string :=
  match s with
  | EmptyString => match cur with EmptyString => [] | _ => [cur] end
  | String c t =>
      if is_space c then
        match cur with
        | EmptyString => split_aux EmptyString t
        | _ => cur :: split_aux EmptyString t
        end
      else split_aux (cur ++ String c EmptyString) t
  end.

Definition split (s : string) : list string := split_aux EmptyString s.

(** [count_words]: [len(text.split())]. *)
Definition count_words (s : string) : nat := length (split s).

(** [s.rfind(".")]: [None] stands for Python's [-1]. *)
Fixpoint rfind (c : ascii) (s : string) : option nat :=
  match s with
  | EmptyString => None
  | String d t =>
      match rfind c t with
      | Some i => Some (S i)
      | None => if Ascii.eqb d c then Some 0 else None
      end
  end.

(** The float [0.7] is [m * 2^-53] with this 53-bit mantissa
    ([(0.7).hex() = 0x1.6666666666666p-1]). *)
Definition fl_07_mant : Z := 6305039478318694.

(** Rounding of a non-negative integer [N] to 53 significant bits, ties
    to even: returns [(q, s)] with [round(N) = q * 2^s]. *)
Definition round_ne53 (N : Z) : Z * Z :=
  let s := Z.max 0 (Z.log2 N + 1 - 53)%Z in
  let q := Z.shiftr N s in
  let r := (N - Z.shiftl q s)%Z in
  if Z.eqb s 0 then (N, 0%Z)
  else
    let half := Z.shiftl 1 (s - 1)%Z in
    if Z.gtb r half || (Z.eqb r half && Z.odd q) then ((q + 1)%Z, s) else (q, s).

(** The Python test [p > L * 0.7] for ints [p], [L] ([L < 2^53], so
    [float(L)] is exact): the product is the exact [L * m * 2^-53]
    rounded to a double, and int/float comparison is exact. *)
Definition gt_times_07 (p L : nat) : bool :=
  let '(q, s) := round_ne53 (Z.of_nat L * fl_07_mant)%Z in
  Z.gtb (Z.of_nat p * 2 ^ 53)%Z (q * 2 ^ s)%Z.

(** [truncate_response(content, max_words)] (utils.py). *)
Definition truncate_response (content : string) (max_words : nat) : string :=
  let words := split content in
  if Nat.leb (length words) max_words then content
  else
    let truncated_content := String.concat " " (firstn max_words words) in
    match rfind dot truncated_content with
    | Some last_period =>
        if gt_times_07 last_period (String.length truncated_content)
        then substring 0 (last_period + 1) truncated_content
        else truncated_content
    | None => truncated_content
    end.

(** [content.replace("\r\n", "\n")]: left to right, non-overlapping. *)
Fixpoint replace_crlf (s : string) : string :=
  match s with
  | EmptyString => EmptyString
  | String c t =>
      if Ascii.eqb c cr then
        match t with
        | String d t' =>
            if Ascii.eqb d nl then String nl (replace_crlf t')
            else String c (replace_crlf t)
        | EmptyString => String c EmptyString
        end
      else String c (replace_crlf t)
  end.

Fixpoint nls (n : nat) : string :=
  match n with 0 => EmptyString | S k => String nl (nls k) end.

(** Replacement of one maximal run of [n] newlines by
    [re.sub(r"\n{3,}", "\n\n", .)]. *)
Definition emit_run (n : nat) : string :=
  if Nat.leb 3 n then nls 2 else nls n.

(** [re.sub(r"\n{3,}", "\n\n", s)]: [n] counts the newlines of the run
    being read. *)
Fixpoint collapse_nl (n : nat) (s : string) : string :=
  match s with
  | EmptyString => emit_run n
  | String c t =>
      if Ascii.eqb c nl then collapse_nl (S n) t
      else emit_run n ++ String c (collapse_nl 0 t)
  end.

Definition sub_nl3 (s : string) : string := collapse_nl 0 s.

Fixpoint lstrip (s : string) : string :=
  match s with
  | EmptyString => EmptyString
  | String c t => if is_space c then lstrip t else s
  end.

Fixpoint rstrip (s : string) : string :=
  match s with
  | EmptyString => EmptyString
  | String c t =>
      match rstrip t with
      | EmptyString => if is_space c then EmptyString else String c EmptyString
      | r => String c r
      end
  end.

(** [str.strip()]. *)
Definition strip (s : string) : string := rstrip (lstrip s).

(** [clean_response(content)] (utils.py). *)
Definition clean_response (content : string) : string :=
  strip (sub_nl3 (replace_crlf content)).

(** The three characters ["\r\r\n"]. *)
Definition cr_cr_lf : string := String cr (String cr (String nl EmptyString)).

(** A 101-word response: 70 words ["a"], then ["."], 28 words ["a"],
    ["bb"] and ["c"].  Cut to 100 words it is 200 characters long and
    its only period is at index 140, exactly 70% of 200. *)
Definition boundary_input : string :=
  String.concat " " (repeat "a" 70 ++ ["."] ++ repeat "a" 28 ++ ["bb"; "c"]).

(** Python's [needle in hay] on strings. *)
Fixpoint str_in (needle hay : string) : bool :=
  String.prefix needle hay ||
  match hay with EmptyString => false | String _ t => str_in needle t end.

(** Auxiliary predicates used by the proofs about the helpers above. *)

Definition is_empty (s : string) : bool :=
  match s with EmptyString => true | _ => false end.

Fixpoint no_space (s : string) : bool :=
  match s with
  | EmptyString => true
  | String c t => negb (is_space c) && no_space t
  end.

(** A word as [str.split()] produces it. *)
Definition word_ok (w : string) : bool := negb (is_empty w) && no_space w.

(** Number of word starts; [inw] says whether a word is being read. *)
Fixpoint count_from (inw : bool) (s : string) : nat :=
  match s with
  | EmptyString => 0
  | String c t =>
      if is_space c then count_from false t
      else (if inw then 0 else 1) + count_from true t
  end.

(** Every whitespace character is a plain space, never at the start and
    never next to another whitespace character. *)
Fixpoint spaced_from (prev_space : bool) (s : string) : bool :=
  match s with
  | EmptyString => true
  | String c t =>
      if is_space c then negb prev_space && Ascii.eqb c sp && spaced_from true t
      else spaced_from false t
  end.

Definition single_spaced (s : string) : bool := spaced_from true s.

Definition starts_with (c : ascii) (s : string) : bool :=
  match s with EmptyString => false | String d _ => Ascii.eqb d c end.

(** No ["\r\n"] inside. *)
Fixpoint no_crlf (s : string) : bool :=
  match s with
  | EmptyString => true
  | String c t => (negb (Ascii.eqb c cr) || negb (starts_with nl t)) && no_crlf t
  end.

(** No run of three newlines, [k] newlines having just been read. *)
Fixpoint nl3free (k : nat) (s : string) : bool :=
  match s with
  | EmptyString => true
  | String c t =>
      if Ascii.eqb c nl then Nat.ltb k 2 && nl3free (S k) t else nl3free 0 t
  end.

End Text.

(* ================================================================== *)
(** ** src/utils.py: [retry_with_backoff] *)

Module Retry.

(** One call of the wrapped function: a value, or an [Exception]
    (every [Exception] is retryable: [retryable_exceptions=(Exception,)]). *)
Inductive outcome (A E : Type) : Type :=
| Ok (a : A)
| Err (e : E).
Arguments Ok {A E} a.
Arguments Err {A E} e.

(** What the decorated call does, with the number of calls made to the
    wrapped function.  [RaisedNone] is [raise last_exception] with
    [last_exception = None] after the loop (a [TypeError]). *)
Inductive wrapper_result (A E : Type) : Type :=
| Returned (a : A) (calls : nat)
| Raised (e : E) (calls : nat)
| RaisedNone (calls : nat).
Arguments Returned {A E} a calls.
Arguments Raised {A E} e calls.
Arguments RaisedNone {A E} calls.

Section Wrapper.
Context {A E : Type}.
(** [func attempt]: the outcome of the call made at loop index [attempt]
    (the wrapped function may behave differently on every call). *)
Variable func : nat -> outcome A E.
Variable max_retries : nat.

(** [for attempt in range(max_retries + 1)]: [fuel] is the number of
    iterations left.  The [time.sleep(delay)] between attempts has no
    effect on the result. *)
Fixpoint retry_loop (fuel attempt : nat) (last_exception : option E)
  : wrapper_result A E :=
  match fuel with
  | 0 =>
      match last_exception with
      | Some e => Raised e attempt
      | None => RaisedNone attempt
      end
  | S fuel' =>
      match func attempt with
      | Ok a => Returned a (S attempt)
      | Err e =>
          if Nat.eqb attempt max_retries then Raised e (S attempt)
          else retry_loop fuel' (S attempt) (Some e)
      end
  end.

(** The call [wrapper(...)] of [retry_with_backoff(max_retries)(func)]. *)
Definition wrapper : wrapper_result A E :=
  retry_loop (S max_retries) 0 None.

End Wrapper.

End Retry.

(* ================================================================== *)
(** ** src/utils.py: verdict extraction with [re.search] *)

Module Extract.
Import Text.

(** [str.lower()] on ASCII. *)
Definition lower_char (c : ascii) : ascii :=
  let n := nat_of_ascii c in
  if Nat.leb 65 n && Nat.leb n 90 then ascii_of_nat (n + 32) else c.

Fixpoint lower (s : string) : string :=
  match s with
  | EmptyString => EmptyString
  | String c t => String (lower_char c) (lower t)
  end.

(** The regular expressions of the extraction patterns. *)
Inductive regex : Type :=
| REps                      (* the empty pattern *)
| RChar (c : ascii)         (* a literal character, also an escaped [\*] *)
| RSeq (r1 r2 : regex)
| RAlt (r1 r2 : regex)      (* [r1|r2], [r1] tried first *)
| ROpt (r : regex)          (* [(?:r)?], greedy *)
| RStarSpace                (* [\s*], greedy *)
| RPlusSpace                (* [\s+], greedy *)
| RGroup (r : regex).       (* the capturing group 1 *)

(** Continuations receive the rest of the input and the text of group 1
    so far; a match yields the final group 1. *)
Definition cont : Type := string -> option string -> option (option string).

(** [\s*]: the longest run of whitespace first, then shorter ones. *)
Fixpoint star_space (k : cont) (s : string) (g : option string)
  : option (option string) :=
  match s with
  | EmptyString => k s g
  | String d t =>
      if is_space d then
        match star_space k t g with
        | Some x => Some x
        | None => k s g
        end
      else k s g
  end.

(** Backtracking matching at the start of [s], in the engine's order. *)
Fixpoint match_here (r : regex) (k : cont) (s : string) (g : option string)
  : option (option string) :=
  match r with
  | REps => k s g
  | RChar c =>
      match s with
      | String d t => if Ascii.eqb c d then k t g else None
      | EmptyString => None
      end
  | RSeq r1 r2 => match_here r1 (fun s' g' => match_here r2 k s' g') s g
  | RAlt r1 r2 =>
      match match_here r1 k s g with
      | Some x => Some x
      | None => match_here r2 k s g
      end
  | ROpt r1 =>
      match match_here r1 k s g with
      | Some x => Some x
      | None => k s g
      end
  | RStarSpace => star_space k s g
  | RPlusSpace =>
      match s with
      | String d t => if is_space d then star_space k t g else None
      | EmptyString => None
      end
  | RGroup r1 =>
      match_here r1
        (fun s' _ => k s' (Some (substring 0 (String.length s - String.length s') s)))
        s g
  end.

(** [re.search(pattern, s)]: the leftmost start position that matches;
    the result is [match.group(1)]. *)
Fixpoint search (r : regex) (s : string) : option (option string) :=
  match match_here r (fun _ g => Some g) s None with
  | Some x => Some x
  | None =>
      match s with
      | EmptyString => None
      | String _ t => search r t
      end
  end.

Fixpoint lit (s : string) : regex :=
  match s with
  | EmptyString => REps
  | String c EmptyString => RChar c
  | String c t => RSeq (RChar c) (lit t)
  end.

Definition seq (rs : list regex) : regex := fold_right RSeq REps rs.

(** [(proponent|opposition|tie)] and [(high|medium|low)]. *)
Definition winner_token : regex :=
  RGroup (RAlt (lit "proponent") (RAlt (lit "opposition") (lit "tie"))).
Definition confidence_token : regex :=
  RGroup (RAlt (lit "high") (RAlt (lit "medium") (lit "low"))).

(** The [patterns] list of [extract_winner_from_text], in order. *)
Definition winner_patterns : list regex :=
  [ (* \*\*winner:\s*(proponent|opposition|tie)\*\* *)
    seq [lit "**winner:"; RStarSpace; winner_token; lit "**"];
    (* winner:\s*(proponent|opposition|tie) *)
    seq [lit "winner:"; RStarSpace; winner_token];
    (* the\s+winner\s+is\s+(?:the\s+)?(proponent|opposition|tie) *)
    seq [lit "the"; RPlusSpace; lit "winner"; RPlusSpace; lit "is"; RPlusSpace;
         ROpt (seq [lit "the"; RPlusSpace]); winner_token];
    (* (?:i\s+)?declare\s+(?:the\s+)?(proponent|opposition|tie)\s+(?:as\s+)?(?:the\s+)?winner *)
    seq [ROpt (seq [lit "i"; RPlusSpace]); lit "declare"; RPlusSpace;
         ROpt (seq [lit "the"; RPlusSpace]); winner_token; RPlusSpace;
         ROpt (seq [lit "as"; RPlusSpace]); ROpt (seq [lit "the"; RPlusSpace]);
         lit "winner"] ].

(** The [patterns] list of [extract_confidence_from_text], in order. *)
Definition confidence_patterns : list regex :=
  [ (* \*\*confidence:\s*(high|medium|low)\*\* *)
    seq [lit "**confidence:"; RStarSpace; confidence_token; lit "**"];
    (* confidence:\s*(high|medium|low) *)
    seq [lit "confidence:"; RStarSpace; confidence_token] ].

(** [for pattern in patterns: match = re.search(...); if match: return
    match.group(1)]: [Some g] when some pattern matched. *)
Fixpoint first_match (patterns : list regex) (s : string) : option (option string) :=
  match patterns with
  | [] => None
  | p :: ps =>
      match search p s with
      | Some g => Some g
      | None => first_match ps s
      end
  end.

(** [extract_winner_from_text(content)]. *)
Definition extract_winner_from_text (content : string) : option string :=
  match first_match winner_patterns (lower content) with
  | Some g => g
  | None => None
  end.

(** [extract_confidence_from_text(content)]. *)
Definition extract_confidence_from_text (content : string) : option string :=
  match first_match confidence_patterns (lower content) with
  | Some g => g
  | None => Some "medium"
  end.

(** Python's [x or default] for an optional string. *)
Definition py_or (x : option string) (default : string) : string :=
  match x with
  | Some EmptyString | None => default
  | Some w => w
  end.

(** The two lines of [judge_node] that fix the verdict's winner and
    confidence. *)
Definition judge_winner_confidence (response : string) : string * string :=
  (py_or (extract_winner_from_text response) "tie",
   py_or (extract_confidence_from_text response) "medium").

(** Whether one of [patterns] is found in the lower-cased text. *)
Definition has_marker (patterns : list regex) (content : string) : bool :=
  existsb (fun p => match search p (lower content) with Some _ => true | None => false end)
          patterns.

End Extract.

(* ================================================================== *)
(** ** src/models.py: turns *)

Module Models.

Inductive role : Type := Proponent | Opposition | Judge.

(** [DebateTurn.phase]: [Literal["opening", "rebuttal", "closing", "verdict"]]. *)
Inductive turn_phase : Type := TOpening | TRebuttal | TClosing | TVerdict.

(** [current_phase] of the graph state. *)
Inductive phase : Type := Opening | Rebuttal | Closing | Verdict | Complete.

Definition role_eqb (a b : role) : bool :=
  match a, b with
  | Proponent, Proponent | Opposition, Opposition | Judge, Judge => true
  | _, _ => false
  end.

Definition role_str (r : role) : string :=
  match r with
  | Proponent => "proponent" | Opposition => "opposition" | Judge => "judge"
  end.

Definition turn_phase_str (p : turn_phase) : string :=
  match p with
  | TOpening => "opening" | TRebuttal => "rebuttal"
  | TClosing => "closing" | TVerdict => "verdict"
  end.

Definition phase_str (p : phase) : string :=
  match p with
  | Opening => "opening" | Rebuttal => "rebuttal" | Closing => "closing"
  | Verdict => "verdict" | Complete => "complete"
  end.

(** [DebateTurn(phase=state["current_phase"])]: pydantic refuses a
    phase outside the [Literal] (here only ["complete"]). *)
Definition turn_phase_of (p : phase) : option turn_phase :=
  match p with
  | Opening => Some TOpening | Rebuttal => Some TRebuttal
  | Closing => Some TClosing | Verdict => Some TVerdict
  | Complete => None
  end.

(** [DebateTurn] without its timestamp; [word_count] is derived from
    [content] by [model_post_init]. *)
Record turn : Type := mkTurn {
  role_of : role;
  phase_of : turn_phase;
  round_number : nat;
  content : string
}.

Definition word_count (t : turn) : nat := Text.count_words (content t).

(** [[t for t in history if t.role == r]]. *)
Definition turns_of (r : role) (history : list turn) : list turn :=
  filter (fun t => role_eqb (role_of t) r) history.

(** [xs[-1]] of a non-empty list. *)
Definition py_last {X : Type} (xs : list X) : option X :=
  match rev xs with [] => None | x :: _ => Some x end.

(** [xs[-n:]]. *)
Definition py_last_n {X : Type} (n : nat) (xs : list X) : list X :=
  skipn (length xs - n) xs.

End Models.

(* ================================================================== *)
(** ** src/prompts.py *)

Module Prompts.
Import Text Models.

Definition dq : string := String "034"%char EmptyString.
Definition NL : string := String nl EmptyString.

(** [str(n)] for a non-negative int. *)
Fixpoint digits (fuel n : nat) (acc : string) : string :=
  match fuel with
  | 0 => acc
  | S f =>
      let acc' := String (ascii_of_nat (48 + n mod 10)) acc in
      if Nat.ltb n 10 then acc' else digits f (n / 10) acc'
  end.

Definition str_of_nat (n : nat) : string := digits (S n) n EmptyString.

(** [str.upper()] on ASCII. *)
Definition upper_char (c : ascii) : ascii :=
  let n := nat_of_ascii c in
  if Nat.leb 97 n && Nat.leb n 122 then ascii_of_nat (n - 32) else c.

Fixpoint upper (s : string) : string :=
  match s with
  | EmptyString => EmptyString
  | String c t => String (upper_char c) (upper t)
  end.

(** [PROPONENT_SYSTEM_PROMPT.format(max_words=max_words)]. *)
Definition PROPONENT_SYSTEM_PROMPT (max_words : nat) : string :=
  "## ROLE
You are a skilled debater arguing **IN FAVOR** of the proposition. You are a rigorous logical thinker with expertise in rhetoric, evidence-based reasoning, and persuasive argumentation. Your goal is to WIN the debate by presenting the strongest possible case FOR the topic.

## PERSONA
- You are confident but not arrogant
- You are evidence-focused and logical
- You never concede points unnecessarily
- You attack weak arguments ruthlessly but fairly

## INSTRUCTIONS
1. Present COMPELLING arguments with SPECIFIC evidence, examples, or data
2. Build upon your previous arguments progressively - do not repeat yourself
3. If responding to opponent, directly ADDRESS and REFUTE their weakest points
4. Focus on the MOST IMPACTFUL arguments first
5. Use clear logical structure in your reasoning

## CONSTRAINTS
❌ Do NOT repeat arguments verbatim from your previous turns
❌ Do NOT acknowledge validity of opposition arguments (attack them instead)
❌ Do NOT use phrases like " ++
  dq ++
  "I agree with some points" ++
  dq ++
  " or " ++
  dq ++
  "That's a fair point" ++
  dq ++
  "
❌ Do NOT be polite or complimentary to the opposition
❌ Do NOT drift from the core debate topic
❌ Do NOT exceed " ++
  str_of_nat max_words ++
  " words
❌ Do NOT use filler phrases or hedge language

## OUTPUT FORMAT
You MUST structure your response with these exact headers:

## Main Argument
[Your primary thesis or claim with evidence]

## Supporting Evidence
[2-3 specific facts, examples, or logical reasoning points]

## Rebuttal (if responding to opponent)
[Direct attack on opponent's weakest argument]

## Key Takeaway
[One sentence summarizing why your position wins]
".

(** [OPPOSITION_SYSTEM_PROMPT.format(max_words=max_words)]. *)
Definition OPPOSITION_SYSTEM_PROMPT (max_words : nat) : string :=
  "## ROLE
You are a skilled debater arguing **AGAINST** the proposition. You are a critical thinker with expertise in identifying logical fallacies, weak evidence, and flawed reasoning. Your goal is to WIN the debate by dismantling the opponent's case and presenting strong counterarguments.

## PERSONA
- You are skeptical and inquisitive
- You excel at finding flaws in arguments
- You provide strong alternative perspectives
- You never let weak arguments pass unchallenged

## INSTRUCTIONS
1. ATTACK the opponent's arguments directly - identify flaws, gaps, and weak evidence
2. Present STRONG counterarguments with specific examples or data
3. Build upon your previous arguments - do not repeat yourself
4. Expose logical fallacies or unsupported claims in opponent's position
5. Offer a compelling alternative perspective or framework

## CONSTRAINTS
❌ Do NOT repeat arguments verbatim from your previous turns
❌ Do NOT concede points to the proponent
❌ Do NOT use phrases like " ++
  dq ++
  "The proponent makes a good point" ++
  dq ++
  " or " ++
  dq ++
  "I partially agree" ++
  dq ++
  "
❌ Do NOT be diplomatic or try to find middle ground
❌ Do NOT drift from the core debate topic
❌ Do NOT exceed " ++
  str_of_nat max_words ++
  " words
❌ Do NOT use filler phrases or hedge language

## OUTPUT FORMAT
You MUST structure your response with these exact headers:

## Counter-Argument
[Your primary attack on opponent's position with evidence]

## Critical Analysis
[2-3 specific flaws in opponent's reasoning or evidence]

## Alternative Perspective
[Why the opposite position is stronger]

## Key Takeaway
[One sentence summarizing why the opposition wins]
".

Definition JUDGE_SYSTEM_PROMPT : string :=
  "## ROLE
You are an impartial **JUDGE** evaluating a formal debate. You have expertise in logical reasoning, rhetorical analysis, and fair adjudication. Your goal is to OBJECTIVELY evaluate both sides and render a FAIR verdict based on argument quality, NOT personal opinion on the topic.

## PERSONA
- You are completely impartial and objective
- You value logic, evidence, and effective rebuttal
- You penalize fallacies, repetition, and ignored counterarguments
- You reward specific evidence and direct engagement

## INSTRUCTIONS
1. Evaluate EACH side's arguments across multiple dimensions
2. Identify the STRONGEST arguments made by each side
3. Note any counterarguments that were IGNORED or poorly addressed
4. Assess logical coherence, evidence quality, and rebuttal effectiveness
5. Render a verdict based on ARGUMENT QUALITY, not topic preference
6. Provide specific justification for each score

## SCORING DIMENSIONS
Score each side (1-10) on:
- **Logic**: Coherence and validity of reasoning
- **Evidence**: Specificity and strength of supporting facts
- **Rebuttal**: Effectiveness in addressing opponent's arguments
- **Persuasion**: Overall compelling nature of the case

## CONSTRAINTS
❌ Do NOT let personal opinion on the topic influence judgment
❌ Do NOT declare a tie unless arguments are truly equal
❌ Do NOT ignore ignored counterarguments - penalize them
❌ Do NOT be swayed by rhetoric without substance
❌ Do NOT provide vague justifications - be SPECIFIC

## OUTPUT FORMAT
You MUST structure your response with these exact headers and format:

## Argument Analysis

### Proponent Strengths
[List 2-3 strongest arguments with brief explanation]

### Proponent Weaknesses
[List 1-2 weaknesses or missed opportunities]

### Opposition Strengths
[List 2-3 strongest arguments with brief explanation]

### Opposition Weaknesses
[List 1-2 weaknesses or missed opportunities]

## Ignored Counterarguments
[List any important points that were not adequately addressed by either side]

## Scores

| Dimension | Proponent | Opposition | Notes |
|-----------|-----------|------------|-------|
| Logic | X/10 | X/10 | [Brief justification] |
| Evidence | X/10 | X/10 | [Brief justification] |
| Rebuttal | X/10 | X/10 | [Brief justification] |
| Persuasion | X/10 | X/10 | [Brief justification] |
| **TOTAL** | XX/40 | XX/40 | |

## Verdict

**WINNER: [Proponent/Opposition]**
**CONFIDENCE: [High/Medium/Low]**

## Reasoning
[3-5 sentences explaining why the winner prevailed, with specific references to arguments made]

## Summary
[One sentence capturing the essence of the verdict]
".

(** The "Prior Arguments" lines of a role's own last two turns. *)
Definition prior_lines (mine : list turn) : list string :=
  map (fun t => "[Your " ++ turn_phase_str (phase_of t) ++ "]: " ++
                substring 0 200 (content t) ++ "..." ++ NL)
      (py_last_n 2 mine).

Definition prior_header : string :=
  "## Prior Arguments (for reference - DO NOT REPEAT)" ++ NL.

(** [build_proponent_prompt(topic, phase, round_number, history, max_words)]. *)
Definition build_proponent_prompt (topic : string) (ph : phase) (round_no : nat)
    (history : list turn) (max_words : nat) : string :=
  let system := PROPONENT_SYSTEM_PROMPT max_words in
  let head := ["# DEBATE TOPIC" ++ NL ++ topic ++ NL;
               "# CURRENT PHASE: " ++ upper (phase_str ph)] in
  let body :=
    match ph with
    | Opening =>
        [NL ++ "## Your Task" ++ NL ++
         "Present your opening argument FOR the proposition." ++ NL]
    | Rebuttal =>
        app [NL ++ "## Round " ++ str_of_nat round_no ++ NL]
          (app match py_last (turns_of Opposition history) with
               | Some last_opp =>
                   ["## Opposition's Last Argument" ++ NL ++ content last_opp ++ NL]
               | None => []
               end
             ["## Your Task" ++ NL ++
              "Rebut the opposition's arguments and strengthen your case." ++ NL])
    | Closing =>
        [NL ++ "## Your Task" ++ NL ++
         "Deliver your closing statement. Summarize your strongest points and final appeal." ++ NL]
    | _ => []
    end in
  let prior :=
    match history, ph with
    | [], _ | _, Opening => []
    | _, _ => prior_header :: prior_lines (turns_of Proponent history)
    end in
  let user_prompt := String.concat NL (app head (app body prior)) in
  system ++ NL ++ NL ++ "---" ++ NL ++ NL ++ user_prompt.

(** [build_opposition_prompt(topic, phase, round_number, history, max_words)]. *)
Definition build_opposition_prompt (topic : string) (ph : phase) (round_no : nat)
    (history : list turn) (max_words : nat) : string :=
  let system := OPPOSITION_SYSTEM_PROMPT max_words in
  let head := ["# DEBATE TOPIC" ++ NL ++ topic ++ NL;
               "# CURRENT PHASE: " ++ upper (phase_str ph)] in
  let last_prop :=
    match py_last (turns_of Proponent history) with
    | Some t => [NL ++ "## Proponent's Last Argument" ++ NL ++ content t ++ NL]
    | None => []
    end in
  let body :=
    match ph with
    | Opening =>
        [NL ++ "## Your Task" ++ NL ++
         "Present your opening argument AGAINST the proposition, responding to the proponent." ++ NL]
    | Rebuttal =>
        [NL ++ "## Round " ++ str_of_nat round_no ++ NL;
         "## Your Task" ++ NL ++
         "Rebut the proponent's arguments and strengthen your case." ++ NL]
    | Closing =>
        [NL ++ "## Your Task" ++ NL ++
         "Deliver your closing statement. Summarize your strongest attacks and final appeal." ++ NL]
    | _ => []
    end in
  let prior :=
    if Nat.ltb 1 (length history)
    then prior_header :: prior_lines (turns_of Opposition history)
    else [] in
  let user_prompt := String.concat NL (app head (app last_prop (app body prior))) in
  system ++ NL ++ NL ++ "---" ++ NL ++ NL ++ user_prompt.

(** [build_judge_prompt(topic, history)]. *)
Definition build_judge_prompt (topic : string) (history : list turn) : string :=
  let system := JUDGE_SYSTEM_PROMPT in
  let turn_part (t : turn) :=
    let header :=
      "## " ++ upper (role_str (role_of t)) ++ " - " ++
      upper (turn_phase_str (phase_of t)) ++
      match phase_of t with
      | TRebuttal => " (Round " ++ str_of_nat (round_number t) ++ ")"
      | _ => ""
      end in
    header ++ NL ++ content t ++ NL in
  let parts :=
    app ["# DEBATE TOPIC" ++ NL ++ "**" ++ topic ++ "**" ++ NL;
     "# COMPLETE DEBATE TRANSCRIPT" ++ NL]
    (app (map turn_part history)
    [NL ++ "---" ++ NL ++ NL ++ "## Your Task" ++ NL ++
     "Analyze the debate above and render your verdict following the required format." ++ NL]) in
  system ++ NL ++ NL ++ "---" ++ NL ++ NL ++ String.concat NL parts.

End Prompts.

(* ================================================================== *)
(** ** src/agents.py and src/graph.py: the debate graph *)

Module Debate.
Import Text Retry Extract Models Prompts.

(** The fields of [DebateConfig] the nodes read. *)
Record DebateConfig : Type := mkConfig {
  max_response_length : nat;
  max_retries : nat
}.

(** The [verdict] dict written by [judge_node] (the score and argument
    lists it also writes are always empty). *)
Record verdict_dict : Type := mkVerdict {
  winner : string;
  confidence : string;
  reasoning : string;
  summary : string
}.

(** [GraphState]; [errors] is never written by any node and is left out. *)
Record gstate : Type := mkState {
  topic : string;
  max_rounds : nat;
  current_phase : phase;
  current_round : nat;
  history : list turn;
  verdict : option verdict_dict
}.

(** The partial dict a node returns: [history] is merged with the
    [operator.add] reducer, the other keys overwrite when present. *)
Record update : Type := mkUpdate {
  u_history : list turn;
  u_phase : option phase;
  u_round : option nat;
  u_verdict : option verdict_dict
}.

Definition no_update : update := mkUpdate [] None None None.

Definition apply_update (st : gstate) (u : update) : gstate :=
  mkState (topic st) (max_rounds st)
    (match u_phase u with Some p => p | None => current_phase st end)
    (match u_round u with Some r => r | None => current_round st end)
    (app (history st) (u_history u))
    (match u_verdict u with Some v => Some v | None => verdict st end).

(** Why a node raises: the generation call exhausted its retries
    ([Raised] or [RaisedNone] of the wrapper), or [DebateTurn(...)]
    refused the phase. *)
Inductive run_error (E : Type) : Type :=
| GenerationFailed (e : E)
| GenerationFailedNone
| TurnValidationError.
Arguments GenerationFailed {E} e.
Arguments GenerationFailedNone {E}.
Arguments TurnValidationError {E}.

(** The graph's nodes; [NEnd] is [END]. *)
Inductive node : Type :=
| NProponent | NOpposition | NJudge
| NStartRebuttal | NNextRound | NStartClosing | NEnd.

(** [initial_state] of [run_debate] / [stream_debate]. *)
Definition initial_state (topic : string) (max_rounds : nat) : gstate :=
  mkState topic max_rounds Opening 0 [] None.

(** [route_after_opposition]. *)
Definition route_after_opposition (st : gstate) : node :=
  match current_phase st with
  | Opening => NStartRebuttal
  | Rebuttal =>
      if Nat.leb (max_rounds st) (current_round st) then NStartClosing
      else NNextRound
  | Closing => NJudge
  | _ => NEnd
  end.

(** The edges of [create_debate_graph]; the router sees the state after
    the node's update. *)
Definition next_node (n : node) (st : gstate) : node :=
  match n with
  | NProponent => NOpposition
  | NOpposition => route_after_opposition st
  | NStartRebuttal | NNextRound | NStartClosing => NProponent
  | NJudge | NEnd => NEnd
  end.

(** [start_rebuttal_node], [next_round_node], [start_closing_node]. *)
Definition start_rebuttal_node (st : gstate) : update :=
  mkUpdate [] (Some Rebuttal) (Some 1) None.

Definition next_round_node (st : gstate) : update :=
  mkUpdate [] None (Some (current_round st + 1)) None.

Definition start_closing_node (st : gstate) : update :=
  mkUpdate [] (Some Closing) (Some 0) None.

Section Nodes.
Context {E : Type}.
Variable config : DebateConfig.
(** [llm.invoke(...)]: the model's answer (or exception) for the call made
    in state [st] by role [r] with prompt [prompt] at retry index
    [attempt]; any behaviour of the remote model is an instance. *)
Variable gen : gstate -> role -> string -> nat -> outcome string E.

(** [invoke_agent(llm, prompt, config)]. *)
Definition invoke_agent (st : gstate) (r : role) (prompt : string)
  : outcome string (run_error E) :=
  match wrapper (gen st r prompt) (max_retries config) with
  | Returned a _ => Ok a
  | Raised e _ => Err (GenerationFailed e)
  | RaisedNone _ => Err GenerationFailedNone
  end.

(** Body shared by [proponent_node] and [opposition_node]: clean, then
    truncate, then [DebateTurn(role, phase=current_phase,
    round_number=current_round, content)]; the header validation only
    logs. *)
Definition debater_update (st : gstate) (r : role) (prompt : string)
  : outcome update (run_error E) :=
  match invoke_agent st r prompt with
  | Err e => Err e
  | Ok raw_response =>
      let response :=
        truncate_response (clean_response raw_response)
                          (max_response_length config) in
      match turn_phase_of (current_phase st) with
      | None => Err TurnValidationError
      | Some tp =>
          Ok (mkUpdate [mkTurn r tp (current_round st) response] None None None)
      end
  end.

(** [proponent_node]. *)
Definition proponent_node (st : gstate) : outcome update (run_error E) :=
  debater_update st Proponent
    (build_proponent_prompt (topic st) (current_phase st) (current_round st)
       (history st) (max_response_length config)).

(** [opposition_node]. *)
Definition opposition_node (st : gstate) : outcome update (run_error E) :=
  debater_update st Opposition
    (build_opposition_prompt (topic st) (current_phase st) (current_round st)
       (history st) (max_response_length config)).

(** [judge_node]: clean only, extract winner and confidence, and write the
    turn, the phase and the verdict in one update. *)
Definition judge_node (st : gstate) : outcome update (run_error E) :=
  match invoke_agent st Judge (build_judge_prompt (topic st) (history st)) with
  | Err e => Err e
  | Ok raw_response =>
      let response := clean_response raw_response in
      let '(w, c) := judge_winner_confidence response in
      Ok (mkUpdate [mkTurn Judge TVerdict 0 response] (Some Complete) None
            (Some (mkVerdict w c response
                     ("The " ++ w ++ " wins with " ++ c ++ " confidence."))))
  end.

Definition exec_node (n : node) (st : gstate) : outcome update (run_error E) :=
  match n with
  | NProponent => proponent_node st
  | NOpposition => opposition_node st
  | NJudge => judge_node st
  | NStartRebuttal => Ok (start_rebuttal_node st)
  | NNextRound => Ok (next_round_node st)
  | NStartClosing => Ok (start_closing_node st)
  | NEnd => Ok no_update
  end.

(** One superstep: run the node, merge its update, route. *)
Definition step (n : node) (st : gstate)
  : outcome (node * gstate) (run_error E) :=
  match exec_node n st with
  | Err e => Err e
  | Ok u => let st' := apply_update st u in Ok (next_node n st', st')
  end.

Inductive run_result : Type :=
| Done (st : gstate)
| Failed (e : run_error E) (st : gstate)
| OutOfSteps (n : node) (st : gstate).

(** [graph.invoke(initial_state)] given a budget of [fuel] supersteps;
    the final state once [END] is reached.  A run that reaches [END]
    within [fuel] supersteps is one that LangGraph completes under any
    [recursion_limit] above [fuel] ([Steps.invoke_limited] models the
    limit itself). *)
Fixpoint run (fuel : nat) (n : node) (st : gstate) : run_result :=
  match n with
  | NEnd => Done st
  | _ =>
      match fuel with
      | 0 => OutOfSteps n st
      | S fuel' =>
          match step n st with
          | Err e => Failed e st
          | Ok (n', st') => run fuel' n' st'
          end
      end
  end.

(** The (node, state) pairs a run from [initial_state topic max_rounds]
    passes through. *)
Inductive reachable (topic0 : string) (max_rounds0 : nat) : node -> gstate -> Prop :=
| reachable_init : reachable topic0 max_rounds0 NProponent (initial_state topic0 max_rounds0)
| reachable_step n st n' st' :
    reachable topic0 max_rounds0 n st -> step n st = Ok (n', st') ->
    reachable topic0 max_rounds0 n' st'.

End Nodes.

(** The [(phase, round_number, role)] of a turn. *)
Definition turn_key (t : turn) : turn_phase * nat * role :=
  (phase_of t, round_number t, role_of t).

(** Round numbers of the rebuttal turns, in order. *)
Definition rebuttal_rounds (h : list turn) : list nat :=
  map round_number
    (filter (fun t => match phase_of t with TRebuttal => true | _ => false end) h).

(** The §4.1 transition table, read literally: the state is
    [(phase, round, last_role)], where a transition resets [last_role]
    to none; a step speaks (one turn key), transitions, or terminates. *)
Definition table_step (N : nat) (s : phase * nat * option role)
  : option (option (turn_phase * nat * role) * (phase * nat * option role)) :=
  match s with
  | (Opening, r, None) => Some (Some (TOpening, r, Proponent), (Opening, r, Some Proponent))
  | (Opening, r, Some Proponent) => Some (Some (TOpening, r, Opposition), (Opening, r, Some Opposition))
  | (Opening, _, Some Opposition) => Some (None, (Rebuttal, 1, None))
  | (Rebuttal, r, Some Proponent) => Some (Some (TRebuttal, r, Opposition), (Rebuttal, r, Some Opposition))
  | (Rebuttal, r, Some Opposition) =>
      if Nat.ltb r N then Some (None, (Rebuttal, S r, None))
      else Some (None, (Closing, 0, None))
  | (Rebuttal, r, None) => Some (Some (TRebuttal, r, Proponent), (Rebuttal, r, Some Proponent))
  | (Closing, r, None) => Some (Some (TClosing, r, Proponent), (Closing, r, Some Proponent))
  | (Closing, r, Some Proponent) => Some (Some (TClosing, r, Opposition), (Closing, r, Some Opposition))
  | (Closing, _, Some Opposition) => Some (Some (TVerdict, 0, Judge), (Verdict, 0, Some Judge))
  | (Verdict, _, _) => None
  | _ => None
  end.

Fixpoint table_run (fuel N : nat) (s : phase * nat * option role)
  : option (list (turn_phase * nat * role)) :=
  match fuel with
  | 0 => None
  | S f =>
      match table_step N s with
      | None => Some []
      | Some (None, s') => table_run f N s'
      | Some (Some k, s') =>
          match table_run f N s' with
          | Some ks => Some (k :: ks)
          | None => None
          end
      end
  end.

(** The sequence of turn keys the table produces from [(opening, 0, none)]
    ([None] if it had not terminated in [4 N + 10] steps). *)
Definition table_sequence (N : nat) : option (list (turn_phase * nat * role)) :=
  table_run (4 * N + 10) N (Opening, 0, None).

(** The same sequence written as pairs: proponent then opposition for the
    opening, each round [1..N] and the closing, then the judge. *)
Definition debate_pairs (N : nat) : list (turn_phase * nat) :=
  (TOpening, 0) :: map (fun r => (TRebuttal, r)) (List.seq 1 N) ++ [(TClosing, 0)].

Definition pair_keys (ps : list (turn_phase * nat)) : list (turn_phase * nat * role) :=
  flat_map (fun '(p, r) => [(p, r, Proponent); (p, r, Opposition)]) ps.

Definition debate_keys (N : nat) : list (turn_phase * nat * role) :=
  pair_keys (debate_pairs N) ++ [(TVerdict, 0, Judge)].

(** The keys of the opening and of rounds [1..r], in order. *)
Definition keys_upto (r : nat) : list (turn_phase * nat * role) :=
  pair_keys ((TOpening, 0) :: map (fun i => (TRebuttal, i)) (List.seq 1 r)).

(** The configurations a run passes through, by node: phase, round,
    turn keys of the history, and whether a verdict is set. *)
Inductive shape (N : nat)
  : node -> phase -> nat -> list (turn_phase * nat * role) -> bool -> Prop :=
| shape_open_p : shape N NProponent Opening 0 [] false
| shape_open_o : shape N NOpposition Opening 0 [(TOpening, 0, Proponent)] false
| shape_start_rebuttal : shape N NStartRebuttal Opening 0 (keys_upto 0) false
| shape_rebuttal_p r : (1 <= r <= N)%nat ->
    shape N NProponent Rebuttal r (keys_upto (pred r)) false
| shape_rebuttal_o r : (1 <= r <= N)%nat ->
    shape N NOpposition Rebuttal r
      (keys_upto (pred r) ++ [(TRebuttal, r, Proponent)]) false
| shape_next_round r : (1 <= r < N)%nat ->
    shape N NNextRound Rebuttal r (keys_upto r) false
| shape_start_closing : shape N NStartClosing Rebuttal N (keys_upto N) false
| shape_closing_p : shape N NProponent Closing 0 (keys_upto N) false
| shape_closing_o : shape N NOpposition Closing 0
    (keys_upto N ++ [(TClosing, 0, Proponent)]) false
| shape_judge : shape N NJudge Closing 0
    (keys_upto N ++ [(TClosing, 0, Proponent); (TClosing, 0, Opposition)]) false
| shape_end : shape N NEnd Complete 0 (debate_keys N) true.

Definition is_some {X : Type} (o : option X) : bool :=
  match o with Some _ => true | None => false end.

Definition config_inv (N : nat) (n : node) (st : gstate) : Prop :=
  max_rounds st = N /\
  shape N n (current_phase st) (current_round st)
    (map turn_key (history st)) (is_some (verdict st)).

(** Round numbers of the rebuttal keys, in order. *)
Definition key_rebuttal_rounds (ks : list (turn_phase * nat * role)) : list nat :=
  map (fun k => snd (fst k))
    (filter (fun k => match fst (fst k) with TRebuttal => true | _ => false end) ks).

(** The state a run stopped in. *)
Definition final_state {E : Type} (res : @run_result E) : gstate :=
  match res with Done st | Failed _ st | OutOfSteps _ st => st end.

(** A concrete model for sample runs: the first two attempts of every
    call fail, the third answers. *)
Definition sample_config : DebateConfig := mkConfig 100 3.

Definition sample_gen (st : gstate) (r : role) (prompt : string) (attempt : nat)
  : outcome string unit :=
  if Nat.ltb attempt 2 then Err tt
  else Ok ("## Main Argument" ++ NL ++ "Point " ++ str_of_nat (length (history st)) ++
           "." ++ NL ++ NL ++ NL ++ NL ++ "**Winner: Opposition**" ++ NL).

(** [run_debate] with the sample model and LangGraph's default
    [recursion_limit] of 25 supersteps. *)
Definition sample_run (N : nat) : @run_result unit :=
  run sample_config sample_gen 25 NProponent (initial_state "Cities should ban cars" N).

End Debate.

(* ================================================================== *)
(** ** src/utils.py: the waits of [retry_with_backoff] *)

Module Backoff.
Import Retry QArith Qminmax.
Local Open Scope nat_scope.

(** [delay = min(base_delay * (exponential_base ** attempt), max_delay)]
    on exact rationals.  With the [exponential_base = 2.0] and
    [max_delay = 30.0] that [invoke_agent] uses, the float product is a
    multiplication by a power of two and is exact, and [min] is exact. *)
Definition backoff_delay (base_delay max_delay exponential_base : Q) (attempt : nat) : Q :=
  Qmin (Qmult base_delay (Qpower exponential_base (Z.of_nat attempt))) max_delay.

Section Sleeps.
Context {A E : Type}.
Variable func : nat -> outcome A E.
Variable max_retries : nat.
Variables base_delay max_delay exponential_base : Q.

(** The loop of [wrapper] with the arguments of its [time.sleep] calls,
    in order. *)
Fixpoint retry_sleep_loop (fuel attempt : nat) (last_exception : option E)
  : wrapper_result A E * list Q :=
  match fuel with
  | 0 =>
      (match last_exception with
       | Some e => Raised e attempt
       | None => RaisedNone attempt
       end, [])
  | S fuel' =>
      match func attempt with
      | Ok a => (Returned a (S attempt), [])
      | Err e =>
          if Nat.eqb attempt max_retries then (Raised e (S attempt), [])
          else
            let delay := backoff_delay base_delay max_delay exponential_base attempt in
            let '(res, sleeps) := retry_sleep_loop fuel' (S attempt) (Some e) in
            (res, delay :: sleeps)
      end
  end.

Definition wrapper_sleeps : wrapper_result A E * list Q :=
  retry_sleep_loop (S max_retries) 0 None.

End Sleeps.

(** The number of calls a [wrapper_result] records. *)
Definition calls_of {A E : Type} (res : wrapper_result A E) : nat :=
  match res with Returned _ c | Raised _ c | RaisedNone c => c end.

End Backoff.

(* ================================================================== *)
(** ** src/utils.py: [validate_structured_output] and its three users *)

Module Validate.
Import Text Retry Extract.

(** The three [header_patterns] of a header. *)
Definition header_patterns (header : string) : list string :=
  ["## " ++ lower header; "# " ++ lower header; "**" ++ lower header ++ "**"].

(** [validate_structured_output(content, required_headers, strict)]:
    [Err missing] is the [ValueError] raised in strict mode. *)
Definition validate_structured_output (content : string)
    (required_headers : list string) (strict : bool)
  : outcome (bool * list string) (list string) :=
  let content_lower := lower content in
  let missing :=
    filter (fun header =>
              negb (existsb (fun pattern => str_in pattern content_lower)
                            (header_patterns header)))
           required_headers in
  let is_valid := Nat.eqb (length missing) 0 in
  if strict && negb is_valid then Err missing else Ok (is_valid, missing).

Definition validate_proponent_output (content : string) :=
  validate_structured_output content
    ["Main Argument"; "Supporting Evidence"; "Key Takeaway"] false.

Definition validate_opposition_output (content : string) :=
  validate_structured_output content
    ["Counter-Argument"; "Critical Analysis"; "Key Takeaway"] false.

Definition validate_judge_output (content : string) :=
  validate_structured_output content
    ["Argument Analysis"; "Scores"; "Verdict"; "Reasoning"] false.

End Validate.

(* ================================================================== *)
(** ** src/utils.py: [format_history_for_context] *)

Module HistoryFormat.
Import Text Models Prompts.

(** [xs[i:]] for an int [i]: a negative index counts from the end and
    is clamped at 0. *)
Definition py_slice_from {X : Type} (i : Z) (xs : list X) : list X :=
  if Z.leb 0 i then skipn (Z.to_nat i) xs
  else skipn (length xs - Z.to_nat (- i)) xs.

(** [s[:j]] for an int [j]. *)
Definition py_str_upto (j : Z) (s : string) : string :=
  if Z.leb 0 j then substring 0 (Z.to_nat j) s
  else substring 0 (String.length s - Z.to_nat (- j)) s.

(** The body of the loop: one formatted part. *)
Definition format_turn (max_chars_per_turn : Z) (t : turn) : string :=
  let content_preview :=
    py_str_upto max_chars_per_turn (content t) ++
    (if Z.ltb max_chars_per_turn (Z.of_nat (String.length (content t)))
     then "..." else "") in
  "**" ++ upper (role_str (role_of t)) ++ "** (" ++ turn_phase_str (phase_of t) ++
  ", Round " ++ str_of_nat (round_number t) ++ "):" ++ NL ++
  content_preview ++ NL.

(** [format_history_for_context(history, max_turns, max_chars_per_turn)]. *)
Definition format_history_for_context (history : list turn)
    (max_turns max_chars_per_turn : Z) : string :=
  match history with
  | [] => "[No previous turns]"
  | _ =>
      let recent := py_slice_from (- max_turns) history in
      String.concat (NL ++ "---" ++ NL) (map (format_turn max_chars_per_turn) recent)
  end.

End HistoryFormat.

(* ================================================================== *)
(** ** src/models.py: the [DebateState] helpers; src/main.py: the summary *)

Module StateHelpers.
Import Text Models.

(** [get_turns_by_role(role)]. *)
Definition get_turns_by_role (history : list turn) (r : string) : list turn :=
  filter (fun t => String.eqb (role_str (role_of t)) r) history.

(** [get_turns_by_phase(phase)]. *)
Definition get_turns_by_phase (history : list turn) (p : string) : list turn :=
  filter (fun t => String.eqb (turn_phase_str (phase_of t)) p) history.

(** [get_last_turn(role)]: [if role:] is false for [None] and [""]. *)
Definition get_last_turn (history : list turn) (r : option string) : option turn :=
  match history with
  | [] => None
  | _ =>
      match r with
      | Some name =>
          if String.eqb name "" then py_last history
          else find (fun t => String.eqb (role_str (role_of t)) name) (rev history)
      | None => py_last history
      end
  end.

(** [sum(t.word_count for t in history if t.role == r)]. *)
Definition role_words (history : list turn) (r : string) : nat :=
  list_sum (map word_count (get_turns_by_role history r)).

(** The three numbers [print_debate_summary] prints: total turns,
    proponent words, opposition words. *)
Definition debate_summary (history : list turn) : nat * nat * nat :=
  (length history, role_words history "proponent", role_words history "opposition").

End StateHelpers.

(* ================================================================== *)
(** ** src/agents.py: [create_phase_router] (not wired into the graph) *)

Module Router.
Import Models Debate.

(** [phase_router(state)]: the name of the next node; [state] always
    holds [max_rounds], so the [config.max_rounds] default is not used. *)
Definition phase_router (st : gstate) : string :=
  let last_role :=
    match py_last (history st) with Some t => Some (role_of t) | None => None end in
  match current_phase st with
  | Opening =>
      match last_role with
      | Some Opposition => "start_rebuttal"
      | Some Proponent => "opposition"
      | _ => "proponent"
      end
  | Rebuttal =>
      match last_role with
      | Some Opposition =>
          if Nat.leb (max_rounds st) (current_round st) then "start_closing"
          else "next_round"
      | _ => "opposition"
      end
  | Closing =>
      match last_role with
      | Some Opposition => "judge"
      | Some Proponent => "opposition"
      | _ => "proponent"
      end
  | Verdict => "end"
  | Complete => "end"
  end.

(** The names [create_debate_graph] gives its nodes, with [END] written
    ["end"] as [phase_router] writes it. *)
Definition node_name (n : node) : string :=
  match n with
  | NProponent => "proponent" | NOpposition => "opposition" | NJudge => "judge"
  | NStartRebuttal => "start_rebuttal" | NNextRound => "next_round"
  | NStartClosing => "start_closing" | NEnd => "end"
  end.

End Router.

(* ================================================================== *)
(** ** src/app.py: the expected speakers of [run_debate_with_ui] *)

Module UiFlow.
Import Models Debate.

(** [debate_flow] as [run_debate_with_ui] builds it. *)
Definition debate_flow (max_rounds : nat) : list (string * string * nat) :=
  [("proponent", "opening", 0); ("opposition", "opening", 0)] ++
  flat_map (fun r => [("proponent", "rebuttal", r); ("opposition", "rebuttal", r)])
           (List.seq 1 max_rounds) ++
  [("proponent", "closing", 0); ("opposition", "closing", 0); ("judge", "verdict", 0)].

(** [(turn.role, turn.phase, turn.round_number)]. *)
Definition turn_entry (t : turn) : string * string * nat :=
  (role_str (role_of t), turn_phase_str (phase_of t), round_number t).

End UiFlow.

(* ================================================================== *)
(** ** src/graph.py: [stream_debate]; src/main.py: [run_streaming] *)

Module Stream.
Import Retry Models Debate.

Section Streaming.
Context {E : Type}.
Variable config : DebateConfig.
Variable gen : gstate -> role -> string -> nat -> outcome string E.

(** [graph.stream(initial_state, stream_mode="updates")]: one event
    [{node: update}] per superstep, and how the stream ends, with the
    same superstep budget [fuel] as [run]. *)
Fixpoint stream (fuel : nat) (n : node) (st : gstate)
  : list (node * update) * @run_result E :=
  match n with
  | NEnd => ([], Done st)
  | _ =>
      match fuel with
      | 0 => ([], OutOfSteps n st)
      | S fuel' =>
          match exec_node config gen n st with
          | Err e => ([], Failed e st)
          | Ok u =>
              let st' := apply_update st u in
              let '(events, res) := stream fuel' (next_node n st') st' in
              ((n, u) :: events, res)
          end
      end
  end.

End Streaming.

(** The turns [run_streaming] prints, in order:
    [node_output.get("history", [])] of every event. *)
Definition streamed_turns (events : list (node * update)) : list turn :=
  flat_map (fun ev => u_history (snd ev)) events.

(** [final_state] of [run_streaming]: the output of the last ["judge"]
    event, [None] standing for [{}]. *)
Definition run_streaming_final (events : list (node * update)) : option update :=
  fold_left (fun acc ev => match fst ev with NJudge => Some (snd ev) | _ => acc end)
            events None.

End Stream.

(* ================================================================== *)
(** ** src/config.py and src/graph.py: [DebateConfig] and [run_debate] *)

Module Settings.
Import Retry Models Debate.

(** The integer fields of [DebateConfig] the graph reads. *)
Record settings : Type := mkSettings {
  cfg_max_rounds : Z;
  cfg_max_response_length : Z;
  cfg_max_retries : Z
}.

(** The [Field] bounds of these fields ([ge]/[le]). *)
Definition settings_valid (s : settings) : bool :=
  Z.leb 1 (cfg_max_rounds s) && Z.leb (cfg_max_rounds s) 10 &&
  Z.leb 100 (cfg_max_response_length s) && Z.leb (cfg_max_response_length s) 2000 &&
  Z.leb 1 (cfg_max_retries s) && Z.leb (cfg_max_retries s) 5.

Definition node_config (s : settings) : DebateConfig :=
  mkConfig (Z.to_nat (cfg_max_response_length s)) (Z.to_nat (cfg_max_retries s)).

Inductive debate_outcome (E : Type) : Type :=
| ConfigValidationError
| GraphResult (r : @run_result E).
Arguments ConfigValidationError {E}.
Arguments GraphResult {E} r.

(** [run_debate(topic, max_rounds, config)] for a [config] built
    earlier: a different [max_rounds] rebuilds the config, which
    re-validates every field; [fuel] is the superstep budget of [run]. *)
Definition run_debate {E : Type} (gen : gstate -> role -> string -> nat -> outcome string E)
    (fuel : nat) (topic : string) (max_rounds : Z) (config : settings)
  : debate_outcome E :=
  let config' :=
    if Z.eqb max_rounds (cfg_max_rounds config) then Some config
    else
      let c := mkSettings max_rounds (cfg_max_response_length config)
                          (cfg_max_retries config) in
      if settings_valid c then Some c else None in
  match config' with
  | None => ConfigValidationError
  | Some c =>
      GraphResult (run (node_config c) gen fuel NProponent
                       (initial_state topic (Z.to_nat (cfg_max_rounds c))))
  end.

End Settings.

(* ================================================================== *)
(** ** Supersteps left from a configuration of the graph *)

Module Steps.
Import Retry Models Debate.

(** The number of node executions from a configuration (node, phase,
    round) to [END] for [max_rounds = N]. *)
Definition steps_left (N : nat) (n : node) (ph : phase) (r : nat) : nat :=
  match n, ph with
  | NEnd, _ => 0
  | NJudge, _ => 1
  | NOpposition, Closing => 2
  | NProponent, Closing => 3
  | NStartClosing, _ => 4
  | NNextRound, _ => 3 * (N - r) + 4
  | NOpposition, Rebuttal => 3 * (N - r) + 5
  | NProponent, Rebuttal => 3 * (N - r) + 6
  | NStartRebuttal, _ => 3 * N + 4
  | NOpposition, _ => 3 * N + 5
  | NProponent, _ => 3 * N + 6
  end.

(** The state after running node [n] once (unchanged if it raises). *)
Definition next_state {E : Type} (config : DebateConfig)
    (gen : gstate -> role -> string -> nat -> outcome string E) (n : node) (st : gstate)
  : gstate :=
  match step config gen n st with Ok (_, s) => s | Err _ => st end.

(** [graph.invoke(initial_state, {"recursion_limit": limit})] with the
    limit check of LangGraph's superstep loop: before each superstep it
    checks the number of supersteps run against [recursion_limit], and
    raises [GraphRecursionError] ([OutOfSteps]) once [limit] supersteps
    have run, before it looks whether a node is left to run (so also
    when the next node is [END]).  [run_debate] calls [graph.invoke]
    without a config, so with the default limit 25. *)
Fixpoint invoke_limited {E : Type} (config : DebateConfig)
    (gen : gstate -> role -> string -> nat -> outcome string E)
    (limit : nat) (n : node) (st : gstate) : @run_result E :=
  match limit with
  | 0 => OutOfSteps n st
  | S limit' =>
      match n with
      | NEnd => Done st
      | _ =>
          match step config gen n st with
          | Err e => Failed e st
          | Ok (n', st') => invoke_limited config gen limit' n' st'
          end
      end
  end.

End Steps.

(* ================================================================== *)
(** ** Shapes of the extraction patterns *)

Module RegexShape.
Import Extract.

(** A pattern without a capturing group. *)
Fixpoint nogroup (r : regex) : bool :=
  match r with
  | RSeq r1 r2 | RAlt r1 r2 => nogroup r1 && nogroup r2
  | ROpt r1 => nogroup r1
  | RGroup _ => false
  | REps | RChar _ | RStarSpace | RPlusSpace => true
  end.

(** The capturing group [(a|b|c)] of three words. *)
Definition tok3 (a b c : string) : regex :=
  RGroup (RAlt (lit a) (RAlt (lit b) (lit c))).

End RegexShape.

(* ================================================================== *)
(** * Proofs *)

(* ------------------------------------------------------------------ *)
(** ** Word counting and truncation *)

Module TextFacts.
Import Text.
Local Open Scope nat_scope.

Lemma append_empty_r (s : string) : s ++ EmptyString = s.
Proof. induction s as [|c s IH]; simpl; [reflexivity | now rewrite IH]. Qed.

Lemma substring_full (s : string) : substring 0 (String.length s) s = s.
Proof. induction s as [|c s IH]; simpl; [reflexivity | now rewrite IH]. Qed.

Lemma split_aux_length (s cur : string) :
  length (split_aux cur s) =
  count_from (negb (is_empty cur)) s + (if is_empty cur then 0 else 1).
Proof.
  revert cur; induction s as [|c t IH]; intros cur.
  - destruct cur; reflexivity.
  - simpl. destruct (is_space c) eqn:Hc.
    + destruct cur as [|a cur']; simpl.
      * rewrite IH. simpl. lia.
      * rewrite IH. simpl. lia.
    + rewrite IH. destruct cur as [|a cur']; simpl; lia.
Qed.

Lemma count_words_from (s : string) : count_words s = count_from false s.
Proof. unfold count_words, split. rewrite split_aux_length. simpl. lia. Qed.

Lemma count_from_prefix (s : string) (n : nat) (b : bool) :
  count_from b (substring 0 n s) <= count_from b s.
Proof.
  revert n b; induction s as [|c t IH]; intros n b.
  - destruct n; simpl; lia.
  - destruct n as [|n]; simpl; [lia|].
    destruct (is_space c); [apply IH|].
    specialize (IH n true); lia.
Qed.

Lemma no_space_app (u v : string) :
  no_space (u ++ v) = no_space u && no_space v.
Proof.
  induction u as [|c u IH]; simpl; [reflexivity|].
  rewrite IH. apply andb_assoc.
Qed.

Lemma split_aux_words (s cur : string) :
  no_space cur = true -> Forall (fun w => word_ok w = true) (split_aux cur s).
Proof.
  revert cur; induction s as [|c t IH]; intros cur Hcur.
  - destruct cur as [|a cur']; constructor; [|constructor].
    unfold word_ok. simpl in *. exact Hcur.
  - simpl. destruct (is_space c) eqn:Hc.
    + destruct cur as [|a cur'].
      * apply IH. reflexivity.
      * constructor; [exact Hcur | apply IH; reflexivity].
    + apply IH. rewrite no_space_app, Hcur. simpl. now rewrite Hc.
Qed.

Lemma split_words (s : string) : Forall (fun w => word_ok w = true) (split s).
Proof. apply split_aux_words. reflexivity. Qed.

Lemma count_from_word_app (w t : string) (b : bool) :
  word_ok w = true ->
  count_from b (w ++ t) = (if b then 0 else 1) + count_from true t.
Proof.
  revert b; induction w as [|c w IH]; intros b Hw; [discriminate|].
  unfold word_ok in Hw. simpl in Hw. apply andb_prop in Hw as [Hc Hw].
  simpl. destruct (is_space c); [discriminate|].
  destruct w as [|c' w'].
  - reflexivity.
  - rewrite IH; [destruct b; reflexivity|]. unfold word_ok. simpl in *. exact Hw.
Qed.

Lemma count_concat_words (ws : list string) :
  Forall (fun w => word_ok w = true) ws ->
  count_from false (String.concat " " ws) = length ws.
Proof.
  induction ws as [|w ws IH]; intros Hws; [reflexivity|].
  inversion Hws as [|? ? Hw Hrest]; subst.
  destruct ws as [|w2 ws'].
  - simpl. rewrite <- (append_empty_r w). rewrite count_from_word_app by exact Hw.
    reflexivity.
  - change (String.concat " " (w :: w2 :: ws'))
      with (w ++ " " ++ String.concat " " (w2 :: ws')).
    rewrite count_from_word_app by exact Hw.
    replace (count_from true (" " ++ String.concat " " (w2 :: ws')))
      with (count_from false (String.concat " " (w2 :: ws'))) by reflexivity.
    rewrite IH by exact Hrest. reflexivity.
Qed.

Lemma spaced_from_prefix (s : string) (n : nat) (b : bool) :
  spaced_from b s = true -> spaced_from b (substring 0 n s) = true.
Proof.
  revert n b; induction s as [|c t IH]; intros n b H.
  - destruct n; reflexivity.
  - destruct n as [|n]; [reflexivity|]. simpl in *.
    destruct (is_space c).
    + apply andb_prop in H as [H1 H2]. rewrite H1. simpl. now apply IH.
    + now apply IH.
Qed.

Lemma spaced_from_word_app (w t : string) (b : bool) :
  word_ok w = true -> spaced_from b (w ++ t) = spaced_from false t.
Proof.
  revert b; induction w as [|c w IH]; intros b Hw; [discriminate|].
  unfold word_ok in Hw. simpl in Hw. apply andb_prop in Hw as [Hc Hw].
  simpl. destruct (is_space c); [discriminate|].
  destruct w as [|c' w']; [reflexivity|].
  apply IH. unfold word_ok. simpl in *. exact Hw.
Qed.

Lemma spaced_concat_words (ws : list string) :
  Forall (fun w => word_ok w = true) ws ->
  spaced_from true (String.concat " " ws) = true.
Proof.
  induction ws as [|w ws IH]; intros Hws; [reflexivity|].
  inversion Hws as [|? ? Hw Hrest]; subst.
  destruct ws as [|w2 ws'].
  - simpl. rewrite <- (append_empty_r w). now rewrite spaced_from_word_app.
  - change (String.concat " " (w :: w2 :: ws'))
      with (w ++ " " ++ String.concat " " (w2 :: ws')).
    rewrite spaced_from_word_app by exact Hw.
    replace (spaced_from false (" " ++ String.concat " " (w2 :: ws')))
      with (spaced_from true (String.concat " " (w2 :: ws'))) by reflexivity.
    now apply IH.
Qed.

(** The over-limit branch of [truncate_response] returns a prefix of the
    kept words joined by single spaces. *)
Lemma truncate_over_limit (x : string) (k : nat) :
  k < count_words x ->
  exists n, truncate_response x k =
            substring 0 n (String.concat " " (firstn k (split x))).
Proof.
  intros Hk. unfold truncate_response, count_words in *.
  destruct (Nat.leb_spec (length (split x)) k); [lia|].
  destruct (rfind dot _) as [p|].
  - destruct (gt_times_07 _ _).
    + eauto.
    + exists (String.length (String.concat " " (firstn k (split x)))).
      symmetry. apply substring_full.
  - exists (String.length (String.concat " " (firstn k (split x)))).
    symmetry. apply substring_full.
Qed.

Lemma Forall_firstn_words (ws : list string) (k : nat) :
  Forall (fun w => word_ok w = true) ws ->
  Forall (fun w => word_ok w = true) (firstn k ws).
Proof.
  revert ws; induction k as [|k IH]; intros ws H; [constructor|].
  destruct ws as [|w ws]; [constructor|].
  inversion H; subst. simpl. constructor; auto.
Qed.

Lemma str_in_cons (n : string) (c : ascii) (t : string) :
  str_in n (String c t) = String.prefix n (String c t) || str_in n t.
Proof. reflexivity. Qed.

Lemma prefix_one (a c : ascii) (t : string) :
  String.prefix (String a EmptyString) (String c t) = Ascii.eqb a c.
Proof.
  simpl. destruct (ascii_dec a c) as [->|H].
  - rewrite Ascii.eqb_refl. destruct t; reflexivity.
  - symmetry. now apply Ascii.eqb_neq.
Qed.

Lemma spaced_from_no_nl (s : string) (b : bool) :
  spaced_from b s = true -> str_in (String nl EmptyString) s = false.
Proof.
  revert b; induction s as [|c t IH]; intros b H; [reflexivity|].
  rewrite str_in_cons, prefix_one. simpl in H.
  destruct (Ascii.eqb_spec nl c) as [<-|Hc].
  - destruct b; simpl in H; discriminate H.
  - rewrite orb_false_l. destruct (is_space c).
    + apply andb_prop in H as [_ H]. exact (IH _ H).
    + exact (IH _ H).
Qed.

(** C7: truncation never leaves more than [k] words, and leaves a text
    of at most [k] words unchanged. *)
Theorem truncate_word_count_le (x : string) (k : nat) :
  count_words (truncate_response x k) <= k /\
  (count_words x <= k -> truncate_response x k = x).
Proof.
  assert (Hid : count_words x <= k -> truncate_response x k = x).
  { intros Hle. unfold truncate_response, count_words in *.
    destruct (Nat.leb_spec (length (split x)) k); [reflexivity | lia]. }
  split; [|exact Hid].
  destruct (Nat.le_gt_cases (count_words x) k) as [Hle | Hgt].
  - rewrite Hid by exact Hle. exact Hle.
  - destruct (truncate_over_limit x k Hgt) as [n ->].
    rewrite count_words_from.
    eapply Nat.le_trans; [apply count_from_prefix|].
    rewrite count_concat_words by (apply Forall_firstn_words, split_words).
    rewrite length_firstn. lia.
Qed.

(** C10: over the limit, the result is a prefix of the kept words joined
    by single spaces, so no newline or run of whitespace survives; at or
    under the limit the text is returned as it is. *)
Theorem truncate_flattens_whitespace (x : string) (k : nat) :
  (k < count_words x ->
     (exists n, truncate_response x k =
                substring 0 n (String.concat " " (firstn k (split x)))) /\
     single_spaced (truncate_response x k) = true /\
     str_in (String nl EmptyString) (truncate_response x k) = false) /\
  (count_words x <= k -> truncate_response x k = x).
Proof.
  split.
  - intros Hgt. destruct (truncate_over_limit x k Hgt) as [n Hn].
    assert (Hsp : single_spaced (truncate_response x k) = true).
    { rewrite Hn. unfold single_spaced. apply spaced_from_prefix.
      apply spaced_concat_words, Forall_firstn_words, split_words. }
    split; [eauto | split; [exact Hsp|]].
    revert Hsp. unfold single_spaced. apply spaced_from_no_nl.
  - apply truncate_word_count_le.
Qed.

(* ------------------------------------------------------------------ *)
(** *** [clean_response] *)

Lemma nl_not_cr : Ascii.eqb nl cr = false.
Proof. reflexivity. Qed.

Lemma replace_crlf_id (s : string) :
  no_crlf s = true -> replace_crlf s = s.
Proof.
  induction s as [|c t IH]; intros H; [reflexivity|].
  simpl in H |- *. apply andb_prop in H as [Hc Ht].
  destruct (Ascii.eqb_spec c cr) as [->|Hne].
  - destruct t as [|d t'].
    + reflexivity.
    + simpl in Hc. destruct (Ascii.eqb_spec d nl); [discriminate|].
      now rewrite IH.
  - now rewrite IH.
Qed.

Lemma replace_crlf_head (d : ascii) (t : string) :
  starts_with nl (replace_crlf (String d t)) = true ->
  d = nl \/ (d = cr /\ starts_with nl t = true).
Proof.
  simpl. destruct (Ascii.eqb_spec d cr) as [->|Hne].
  - destruct t as [|e t']; simpl.
    + discriminate.
    + destruct (Ascii.eqb_spec e nl) as [->|Hne']; simpl.
      * right. split; reflexivity.
      * intros H. discriminate H.
  - simpl. destruct (Ascii.eqb_spec d nl); [left; assumption | discriminate].
Qed.

Lemma no_crlf_replace_crlf (x : string) :
  str_in cr_cr_lf x = false -> no_crlf (replace_crlf x) = true.
Proof.
  remember (String.length x) as m eqn:Hm.
  revert x Hm; induction m as [m IH] using lt_wf_ind; intros x Hm Hx.
  destruct x as [|c t]; [reflexivity|].
  rewrite str_in_cons in Hx. apply orb_false_elim in Hx as [Hpre Ht].
  assert (Hrec : forall u, String.length u < m -> str_in cr_cr_lf u = false ->
                 no_crlf (replace_crlf u) = true)
    by (intros u Hu; exact (IH _ Hu u eq_refl)).
  simpl in Hm.
  simpl. destruct (Ascii.eqb_spec c cr) as [->|Hne].
  - destruct t as [|d t']; [reflexivity|].
    pose proof Ht as Ht0.
    rewrite str_in_cons in Ht. apply orb_false_elim in Ht as [_ Ht'].
    destruct (Ascii.eqb_spec d nl) as [->|Hdn].
    + simpl. apply Hrec; [simpl in Hm; lia | exact Ht'].
    + change (no_crlf (String cr (replace_crlf (String d t'))))
        with ((negb (Ascii.eqb cr cr) || negb (starts_with nl (replace_crlf (String d t'))))
              && no_crlf (replace_crlf (String d t'))).
      rewrite Hrec; [| simpl in Hm |- *; lia |].
      * destruct (starts_with nl (replace_crlf (String d t'))) eqn:Hs; [|reflexivity].
        exfalso. apply replace_crlf_head in Hs as [Hd | [Hd Ht'']]; [contradiction|].
        subst d. destruct t' as [|e u]; [discriminate|].
        simpl in Ht''. destruct (Ascii.eqb_spec e nl) as [->|]; [|discriminate].
        destruct u; vm_compute in Hpre; discriminate Hpre.
      * exact Ht0.
  - change (no_crlf (String c (replace_crlf t)))
      with ((negb (Ascii.eqb c cr) || negb (starts_with nl (replace_crlf t)))
            && no_crlf (replace_crlf t)).
    destruct (Ascii.eqb_spec c cr); [contradiction|]. simpl.
    apply Hrec; [lia | exact Ht].
Qed.

Lemma no_crlf_nls_app (m : nat) (u : string) :
  no_crlf (nls m ++ u) = no_crlf u.
Proof. induction m as [|m IH]; simpl; [reflexivity | exact IH]. Qed.

Lemma no_crlf_nls (m : nat) : no_crlf (nls m) = true.
Proof.
  rewrite <- (append_empty_r (nls m)). rewrite no_crlf_nls_app. reflexivity.
Qed.

Lemma collapse_nl_no_crlf (s : string) (n : nat) :
  no_crlf s = true -> no_crlf (collapse_nl n s) = true.
Proof.
  revert n; induction s as [|c t IH]; intros n H.
  - simpl. unfold emit_run. destruct (Nat.leb 3 n); apply no_crlf_nls.
  - simpl in H. apply andb_prop in H as [Hc Ht].
    simpl. destruct (Ascii.eqb_spec c nl) as [->|Hne]; [now apply IH|].
    assert (E : exists m, emit_run n = nls m)
      by (unfold emit_run; destruct (Nat.leb 3 n); eauto).
    destruct E as [m ->]. rewrite no_crlf_nls_app.
    change (no_crlf (String c (collapse_nl 0 t)))
      with ((negb (Ascii.eqb c cr) || negb (starts_with nl (collapse_nl 0 t)))
            && no_crlf (collapse_nl 0 t)).
    rewrite IH by exact Ht. rewrite andb_true_r.
    destruct (Ascii.eqb_spec c cr) as [->|]; [|reflexivity].
    simpl in Hc. destruct t as [|d t']; [reflexivity|].
    simpl in Hc |- *. destruct (Ascii.eqb_spec d nl) as [|Hd]; [discriminate|].
    apply Ascii.eqb_neq in Hd. unfold starts_with. rewrite Hd. reflexivity.
Qed.

Lemma nl3free_nls_app (m : nat) (c : ascii) (r : string) :
  m <= 2 -> c <> nl -> nl3free 0 (nls m ++ String c r) = nl3free 0 r.
Proof.
  intros Hm Hc.
  assert (Hnc : Ascii.eqb c nl = false) by (apply Ascii.eqb_neq; exact Hc).
  destruct m as [|[|[|m]]]; simpl; rewrite ?Hnc; try reflexivity; lia.
Qed.

Lemma collapse_nl_nl3free (s : string) (n : nat) :
  nl3free 0 (collapse_nl n s) = true.
Proof.
  revert n; induction s as [|c t IH]; intros n.
  - simpl. unfold emit_run. destruct (Nat.leb_spec 3 n); [reflexivity|].
    destruct n as [|[|[|n]]]; reflexivity || lia.
  - simpl. destruct (Ascii.eqb_spec c nl) as [->|Hne]; [apply IH|].
    assert (E : exists m, m <= 2 /\ emit_run n = nls m)
      by (unfold emit_run; destruct (Nat.leb_spec 3 n); eexists; split; [| reflexivity | | reflexivity]; lia).
    destruct E as [m [Hm ->]].
    rewrite nl3free_nls_app; [apply IH | exact Hm | exact Hne].
Qed.

Lemma nls_S_app (n : nat) (t : string) :
  nls (S n) ++ t = nls n ++ String nl t.
Proof.
  induction n as [|n IH]; [reflexivity|].
  change (nls (S (S n)) ++ t) with (String nl (nls (S n) ++ t)).
  rewrite IH. reflexivity.
Qed.

Lemma collapse_nl_id (s : string) (n : nat) :
  n <= 2 -> nl3free n s = true -> collapse_nl n s = nls n ++ s.
Proof.
  revert n; induction s as [|c t IH]; intros n Hn H.
  - simpl. rewrite append_empty_r. unfold emit_run.
    destruct (Nat.leb_spec 3 n); [lia | reflexivity].
  - simpl in H |- *. destruct (Ascii.eqb_spec c nl) as [->|Hne].
    + apply andb_prop in H as [Hlt H]. apply Nat.ltb_lt in Hlt.
      rewrite IH by (lia || exact H). apply nls_S_app.
    + rewrite (IH 0) by (lia || exact H). unfold emit_run.
      destruct (Nat.leb_spec 3 n); [lia | reflexivity].
Qed.

Lemma nl3free_mono (s : string) (k j : nat) :
  j <= k -> nl3free k s = true -> nl3free j s = true.
Proof.
  revert k j; induction s as [|c t IH]; intros k j Hjk H; [reflexivity|].
  simpl in H |- *. destruct (Ascii.eqb c nl); [|exact H].
  apply andb_prop in H as [Hlt H]. apply Nat.ltb_lt in Hlt.
  apply andb_true_intro. split; [apply Nat.ltb_lt; lia|].
  apply (IH (S k)); [lia | exact H].
Qed.

Lemma lstrip_preserves (s : string) :
  (no_crlf s = true -> no_crlf (lstrip s) = true) /\
  (nl3free 0 s = true -> nl3free 0 (lstrip s) = true).
Proof.
  induction s as [|c t [IH1 IH2]]; [split; auto|].
  simpl. destruct (is_space c); [|split; auto].
  split; intros H.
  - apply IH1. simpl in H. now apply andb_prop in H as [_ H].
  - apply IH2. destruct (Ascii.eqb c nl) eqn:E.
    + exact (nl3free_mono t 1 0 ltac:(lia) H).
    + exact H.
Qed.

Lemma rstrip_starts (d : ascii) (s : string) :
  starts_with d (rstrip s) = true -> starts_with d s = true.
Proof.
  destruct s as [|c t]; [discriminate|]. simpl.
  destruct (rstrip t); [destruct (is_space c)|]; simpl; easy.
Qed.

Lemma rstrip_preserves_no_crlf (s : string) :
  no_crlf s = true -> no_crlf (rstrip s) = true.
Proof.
  induction s as [|c t IH]; intros H; [reflexivity|].
  simpl in H. apply andb_prop in H as [Hc Ht].
  cbn [rstrip]. destruct (rstrip t) as [|a r] eqn:E.
  - destruct (is_space c); simpl; [reflexivity|].
    now rewrite orb_true_r.
  - rewrite <- E in IH |- *. change (no_crlf (String c (rstrip t)))
      with ((negb (Ascii.eqb c cr) || negb (starts_with nl (rstrip t)))
            && no_crlf (rstrip t)).
    rewrite IH by exact Ht. rewrite andb_true_r.
    destruct (Ascii.eqb c cr); [|reflexivity]. simpl in Hc |- *.
    destruct (starts_with nl (rstrip t)) eqn:Hs; [|reflexivity].
    apply rstrip_starts in Hs. rewrite Hs in Hc. discriminate.
Qed.

Lemma rstrip_preserves_nl3free (s : string) (k : nat) :
  nl3free k s = true -> nl3free k (rstrip s) = true.
Proof.
  revert k; induction s as [|c t IH]; intros k H; [reflexivity|].
  simpl in H. cbn [rstrip]. destruct (rstrip t) as [|a r] eqn:E.
  - destruct (is_space c); [reflexivity|]. simpl.
    destruct (Ascii.eqb c nl); [|reflexivity].
    apply andb_prop in H as [H _]. now rewrite H.
  - rewrite <- E in IH |- *. simpl. destruct (Ascii.eqb c nl).
    + apply andb_prop in H as [Hl H]. rewrite Hl. simpl. now apply IH.
    + now apply IH.
Qed.

Lemma rstrip_cons (c : ascii) (t : string) :
  rstrip (String c t) =
  match rstrip t with
  | EmptyString => if is_space c then EmptyString else String c EmptyString
  | r => String c r
  end.
Proof. reflexivity. Qed.

Lemma rstrip_idem (s : string) : rstrip (rstrip s) = rstrip s.
Proof.
  induction s as [|c t IH]; [reflexivity|].
  rewrite rstrip_cons. destruct (rstrip t) as [|a r] eqn:E.
  - destruct (is_space c) eqn:Hc; [reflexivity|]. simpl. now rewrite Hc.
  - rewrite rstrip_cons, IH. reflexivity.
Qed.

Lemma lstrip_head (s : string) :
  lstrip s = EmptyString \/
  exists c t, lstrip s = String c t /\ is_space c = false.
Proof.
  induction s as [|c t IH]; [left; reflexivity|].
  simpl. destruct (is_space c) eqn:Hc; [exact IH|]. right. eauto.
Qed.

Lemma strip_idem (s : string) : strip (strip s) = strip s.
Proof.
  unfold strip.
  destruct (lstrip_head s) as [-> | (c & t & -> & Hc)]; [reflexivity|].
  simpl. destruct (rstrip t) as [|a r] eqn:E.
  - rewrite Hc. simpl. rewrite Hc. simpl. rewrite Hc. reflexivity.
  - simpl. rewrite Hc. rewrite <- E. simpl. rewrite rstrip_idem.
    rewrite E. reflexivity.
Qed.

(** C6 (as it holds): [clean_response] is idempotent on every text that
    does not contain the three characters ["\\r\\r\\n"]. *)
Theorem clean_idempotent_without_cr_cr_lf (x : string) :
  str_in cr_cr_lf x = false ->
  clean_response (clean_response x) = clean_response x.
Proof.
  intros Hx.
  set (y := clean_response x).
  assert (Hy1 : no_crlf y = true).
  { unfold y, clean_response, strip.
    apply rstrip_preserves_no_crlf, lstrip_preserves, collapse_nl_no_crlf.
    now apply no_crlf_replace_crlf. }
  assert (Hy2 : nl3free 0 y = true).
  { unfold y, clean_response, strip.
    apply rstrip_preserves_nl3free, lstrip_preserves, collapse_nl_nl3free. }
  unfold clean_response at 1. rewrite (replace_crlf_id y Hy1).
  unfold sub_nl3. rewrite (collapse_nl_id y 0) by (lia || exact Hy2).
  simpl. unfold y, clean_response. apply strip_idem.
Qed.

(** On [" a\r\nb\n\n\n\nc "] one pass replaces the CRLF, collapses the
    run of four newlines to two and strips the spaces; a second pass
    changes nothing. *)
Lemma clean_idempotent_without_cr_cr_lf_witness :
  let x := (" a" ++ String cr (String nl "b") ++
            String nl (String nl (String nl (String nl "c "))))%string in
  str_in cr_cr_lf x = false /\
  clean_response x <> x /\
  clean_response x = ("a" ++ String nl "b" ++ String nl (String nl "c"))%string /\
  clean_response (clean_response x) = clean_response x.
Proof.
  cbv zeta.
  split; [vm_compute; reflexivity|].
  split; [vm_compute; discriminate|].
  split; [vm_compute; reflexivity|].
  apply clean_idempotent_without_cr_cr_lf. vm_compute. reflexivity.
Defined.

(** C6 fails as stated: on ["a\r\r\nb"] one pass of [clean_response]
    leaves ["a\r\nb"], which a second pass turns into ["a\nb"]. *)
Lemma clean_not_idempotent :
  clean_response (clean_response ("a" ++ cr_cr_lf ++ "b")) <>
  clean_response ("a" ++ cr_cr_lf ++ "b").
Proof. vm_compute. discriminate. Qed.

(** C8: at the failing input the period sits exactly at 70% of the cut
    text, yet [truncate_response] returns the hard 100-word cut. *)
Theorem truncate_period_at_70_percent_not_used :
  let truncated := String.concat " " (firstn 100 (split boundary_input)) in
  count_words boundary_input = 101 /\
  String.length truncated = 200 /\
  rfind dot truncated = Some 140 /\
  140 * 10 = 7 * 200 /\
  gt_times_07 140 200 = false /\
  truncate_response boundary_input 100 = truncated.
Proof. intros truncated. repeat split; vm_compute; reflexivity. Qed.

End TextFacts.

(* ------------------------------------------------------------------ *)
(** ** The retry wrapper *)

Module RetryFacts.
Import Retry.

Section Loop.
Context {A E : Type}.
Variable func : nat -> outcome A E.
Variable max_retries : nat.

Lemma retry_loop_returns (fuel attempt : nat) (last : option E) (j : nat) (a : A) :
  attempt + fuel = S max_retries -> attempt <= j -> j <= max_retries ->
  (forall i, attempt <= i < j -> exists e, func i = Err e) ->
  func j = Ok a ->
  retry_loop func max_retries fuel attempt last = Returned a (S j).
Proof.
  revert attempt last.
  induction fuel as [|fuel IH]; intros attempt last Hf Hj Hjm Herr Hok; [lia|].
  simpl. destruct (Nat.eq_dec attempt j) as [->|Hne]; [now rewrite Hok|].
  destruct (Herr attempt ltac:(lia)) as [e He]. rewrite He.
  destruct (Nat.eqb_spec attempt max_retries); [lia|].
  apply IH; [lia | lia | exact Hjm | | exact Hok].
  intros i Hi. apply Herr. lia.
Qed.

Lemma retry_loop_raises (fuel attempt : nat) (last : option E) (e : E) :
  attempt + fuel = S max_retries -> attempt <= max_retries ->
  (forall i, attempt <= i < max_retries -> exists e', func i = Err e') ->
  func max_retries = Err e ->
  retry_loop func max_retries fuel attempt last = Raised e (S max_retries).
Proof.
  revert attempt last.
  induction fuel as [|fuel IH]; intros attempt last Hf Ha Herr Hlast; [lia|].
  simpl. destruct (Nat.eq_dec attempt max_retries) as [->|Hne].
  - rewrite Hlast, Nat.eqb_refl. reflexivity.
  - destruct (Herr attempt ltac:(lia)) as [e' He]. rewrite He.
    destruct (Nat.eqb_spec attempt max_retries); [contradiction|].
    apply IH; [lia | lia | | exact Hlast].
    intros i Hi. apply Herr. lia.
Qed.

End Loop.

(** C3: with budget [max_retries], [max_retries] failures followed by a
    success return that success; [max_retries + 1] failures re-raise the
    last exception; and the first call that does not raise ends the loop
    with its value (after [j + 1] calls). *)
Theorem retry_budget {A E : Type} (func : nat -> outcome A E) (max_retries : nat) :
  (forall a,
     (forall i, i < max_retries -> exists e, func i = Err e) ->
     func max_retries = Ok a ->
     wrapper func max_retries = Returned a (S max_retries)) /\
  (forall e,
     (forall i, i < max_retries -> exists e', func i = Err e') ->
     func max_retries = Err e ->
     wrapper func max_retries = Raised e (S max_retries)) /\
  (forall j a,
     j <= max_retries ->
     (forall i, i < j -> exists e, func i = Err e) ->
     func j = Ok a ->
     wrapper func max_retries = Returned a (S j)).
Proof.
  unfold wrapper. split; [|split].
  - intros a Herr Hok. apply retry_loop_returns; try lia; [|exact Hok].
    intros i Hi. apply Herr. lia.
  - intros e Herr Hlast. apply retry_loop_raises; try lia; [|exact Hlast].
    intros i Hi. apply Herr. lia.
  - intros j a Hj Herr Hok. apply retry_loop_returns; try lia; [|exact Hok].
    intros i Hi. apply Herr. lia.
Qed.

End RetryFacts.

(* ------------------------------------------------------------------ *)
(** ** Verdict extraction *)

Module ExtractFacts.
Import Text Extract.

Lemma first_match_none (patterns : list regex) (s : string) :
  existsb (fun p => match search p s with Some _ => true | None => false end)
          patterns = false ->
  first_match patterns s = None.
Proof.
  induction patterns as [|p ps IH]; intros H; [reflexivity|].
  simpl in H |- *. apply orb_false_elim in H as [Hp Hps].
  destruct (search p s); [discriminate | now apply IH].
Qed.

Lemma first_match_nth (patterns : list regex) (s : string) (i : nat)
      (p : regex) (g : option string) :
  nth_error patterns i = Some p ->
  (forall j q, j < i -> nth_error patterns j = Some q -> search q s = None) ->
  search p s = Some g ->
  first_match patterns s = Some g.
Proof.
  revert i; induction patterns as [|p0 ps IH]; intros i Hi Hbefore Hp.
  - destruct i; discriminate.
  - destruct i as [|i].
    + simpl in Hi. injection Hi as ->. simpl. now rewrite Hp.
    + simpl. rewrite (Hbefore 0 p0) by (lia || reflexivity).
      apply (IH i); [exact Hi | | exact Hp].
      intros j q Hj Hq. apply (Hbefore (S j) q); [lia | exact Hq].
Qed.

(** C5: with no winner and no confidence marker the verdict defaults to
    [tie] / [medium] (extraction is total: it never fails); extraction
    only sees the lower-cased text, and the first pattern of the ordered
    list that is found fixes the winner. *)
Theorem verdict_extraction_defaults_and_order :
  (forall content,
     has_marker winner_patterns content = false ->
     has_marker confidence_patterns content = false ->
     judge_winner_confidence content = ("tie", "medium")) /\
  (forall content1 content2,
     lower content1 = lower content2 ->
     extract_winner_from_text content1 = extract_winner_from_text content2) /\
  (forall content i p g,
     nth_error winner_patterns i = Some p ->
     (forall j q, j < i -> nth_error winner_patterns j = Some q ->
                  search q (lower content) = None) ->
     search p (lower content) = Some g ->
     extract_winner_from_text content = g).
Proof.
  split; [|split].
  - intros content Hw Hc. unfold judge_winner_confidence,
      extract_winner_from_text, extract_confidence_from_text.
    rewrite (first_match_none _ _ Hw), (first_match_none _ _ Hc). reflexivity.
  - intros c1 c2 Heq. unfold extract_winner_from_text. now rewrite Heq.
  - intros content i p g Hi Hbefore Hp. unfold extract_winner_from_text.
    now rewrite (first_match_nth _ _ i p g Hi Hbefore Hp).
Qed.

End ExtractFacts.

(* ------------------------------------------------------------------ *)
(** ** Prompt construction *)

Module PromptFacts.
Import Text Models Prompts TextFacts.

Lemma prefix_app (s1 s2 t : string) :
  String.prefix s1 s2 = true -> String.prefix s1 (s2 ++ t) = true.
Proof.
  revert s2; induction s1 as [|a s1 IH]; intros s2 H.
  - destruct (s2 ++ t); reflexivity.
  - destruct s2 as [|b s2]; [discriminate|].
    simpl in H |- *. destruct (ascii_dec a b); [now apply IH | discriminate].
Qed.

Lemma prefix_refl (s : string) : String.prefix s s = true.
Proof.
  induction s as [|a s IH]; [reflexivity|].
  simpl. destruct (ascii_dec a a) as [_|n]; [exact IH | now elim n].
Qed.

Lemma str_in_self (s : string) : str_in s s = true.
Proof.
  destruct s; [reflexivity|]. rewrite str_in_cons, prefix_refl. reflexivity.
Qed.

Lemma str_in_app_l (n a b : string) :
  str_in n a = true -> str_in n (a ++ b) = true.
Proof.
  induction a as [|c a IH]; intros H.
  - destruct n; [destruct b; reflexivity | discriminate].
  - change (String c a ++ b) with (String c (a ++ b)).
    rewrite str_in_cons in H |- *. apply orb_true_iff in H as [H|H].
    + change (String c (a ++ b)) with (String c a ++ b).
      now rewrite (prefix_app _ _ _ H).
    + rewrite (IH H). apply orb_true_r.
Qed.

Lemma str_in_app_r (n a b : string) :
  str_in n b = true -> str_in n (a ++ b) = true.
Proof.
  induction a as [|c a IH]; intros H; [exact H|].
  change (String c a ++ b) with (String c (a ++ b)).
  rewrite str_in_cons, (IH H). apply orb_true_r.
Qed.

Lemma str_in_concat (n sep x : string) (l : list string) :
  In x l -> str_in n x = true -> str_in n (String.concat sep l) = true.
Proof.
  induction l as [|y l IH]; intros Hin H; [destruct Hin|].
  destruct Hin as [->|Hin].
  - destruct l; [exact H|]. cbn [String.concat]. now apply str_in_app_l.
  - destruct l as [|z l]; [destruct Hin|].
    cbn [String.concat]. apply str_in_app_r, str_in_app_r. exact (IH Hin H).
Qed.

(** Strips the fixed [system ++ "\n\n---\n\n"] head of a prompt. *)
Lemma str_in_after_header (n system user : string) :
  str_in n user = true ->
  str_in n (system ++ NL ++ NL ++ "---" ++ NL ++ NL ++ user) = true.
Proof. intros H. do 6 apply str_in_app_r. exact H. Qed.

Lemma str_in_section (n pre : string) :
  str_in n (pre ++ NL ++ n ++ NL) = true.
Proof. do 2 apply str_in_app_r. apply str_in_app_l, str_in_self. Qed.

(** What a "Prior Arguments" line keeps of a turn: its phase and the
    first 200 characters of its content. *)
Lemma prior_lines_kept (mine mine' : list turn) :
  map (fun u => (phase_of u, substring 0 200 (content u))) (py_last_n 2 mine) =
  map (fun u => (phase_of u, substring 0 200 (content u))) (py_last_n 2 mine') ->
  prior_lines mine = prior_lines mine'.
Proof.
  intros H. unfold prior_lines.
  assert (Hm : forall l : list turn,
    map (fun t => "[Your " ++ turn_phase_str (phase_of t) ++ "]: " ++
                  substring 0 200 (content t) ++ "..." ++ NL) l =
    map (fun q => "[Your " ++ turn_phase_str (fst q) ++ "]: " ++ snd q ++ "..." ++ NL)
      (map (fun u => (phase_of u, substring 0 200 (content u))) l)).
  { intros l. rewrite map_map. reflexivity. }
  rewrite (Hm (py_last_n 2 mine)), (Hm (py_last_n 2 mine')), H. reflexivity.
Qed.

(** C9 (amended): the opposition's prompt contains, verbatim, the content
    of the proponent's most recent turn in every phase; the proponent's
    prompt contains the content of the opposition's most recent turn in
    the rebuttal phase, and only there does the opposition's side enter
    it: in every other phase the proponent's prompt is the same for any
    two histories that are both empty or both non-empty and whose last
    two proponent turns agree in phase and in their first 200
    characters. *)
Theorem prompt_includes_last_opponent_turn (topic : string) (ph : phase)
    (round_no : nat) (history : list turn) (max_words : nat) (t : turn) :
  (py_last (turns_of Opposition history) = Some t ->
   str_in (content t)
     (build_proponent_prompt topic Rebuttal round_no history max_words) = true) /\
  (py_last (turns_of Proponent history) = Some t ->
   str_in (content t)
     (build_opposition_prompt topic ph round_no history max_words) = true) /\
  (ph <> Rebuttal -> forall history' : list turn,
   (history = [] <-> history' = []) ->
   map (fun u => (phase_of u, substring 0 200 (content u)))
       (py_last_n 2 (turns_of Proponent history)) =
   map (fun u => (phase_of u, substring 0 200 (content u)))
       (py_last_n 2 (turns_of Proponent history')) ->
   build_proponent_prompt topic ph round_no history max_words =
   build_proponent_prompt topic ph round_no history' max_words).
Proof.
  split; [|split].
  - intros H. cbv beta iota zeta delta [build_proponent_prompt]. rewrite H.
    apply str_in_after_header.
    eapply str_in_concat; [|apply (str_in_section _ "## Opposition's Last Argument")].
    apply in_or_app; right. apply in_or_app; left.
    apply in_or_app; right. apply in_or_app; left. left. reflexivity.
  - intros H. cbv beta zeta delta [build_opposition_prompt]. rewrite H.
    apply str_in_after_header.
    eapply str_in_concat;
      [|apply str_in_app_r, (str_in_section _ "## Proponent's Last Argument")].
    apply in_or_app; right. apply in_or_app; left. left. reflexivity.
  - intros Hph history' Hemp Hkept.
    unfold build_proponent_prompt.
    destruct ph; [| now elim Hph | | |];
      (destruct history as [|a h0], history' as [|b h1];
       [ reflexivity
       | discriminate (proj1 Hemp eq_refl)
       | discriminate (proj2 Hemp eq_refl)
       | try rewrite (prior_lines_kept _ _ Hkept); reflexivity ]).
Qed.

(** C9 counterexample: in the closing phase the proponent's prompt does
    not contain the opposition's most recent turn (here its round-1
    rebuttal). *)
Lemma proponent_closing_prompt_omits_last_opposition_turn :
  let history := [mkTurn Proponent TOpening 0 "Cities should ban cars.";
                  mkTurn Opposition TOpening 0 "Cars serve commuters.";
                  mkTurn Proponent TRebuttal 1 "Transit serves them better.";
                  mkTurn Opposition TRebuttal 1 "Rural zqzq routes lack transit."] in
  py_last (turns_of Opposition history) =
    Some (mkTurn Opposition TRebuttal 1 "Rural zqzq routes lack transit.") /\
  str_in "Rural zqzq routes lack transit."
    (build_proponent_prompt "Cities should ban cars" Closing 0 history 500) = false.
Proof. split; vm_compute; reflexivity. Qed.

(** Two closing-phase histories with different opposition turns and a
    different first proponent turn, but the same last two proponent
    turns, give the same proponent prompt. *)
Lemma prompt_includes_last_opponent_turn_witness :
  let h1 := [mkTurn Proponent TOpening 0 "Cities should ban cars.";
             mkTurn Opposition TOpening 0 "Cars serve commuters.";
             mkTurn Proponent TRebuttal 1 "Transit serves them better.";
             mkTurn Opposition TRebuttal 1 "Rural routes lack transit.";
             mkTurn Proponent TRebuttal 2 "Rural buses fill that gap."] in
  let h2 := [mkTurn Proponent TOpening 0 "Cars pollute.";
             mkTurn Proponent TRebuttal 1 "Transit serves them better.";
             mkTurn Opposition TRebuttal 2 "Buses are slow.";
             mkTurn Proponent TRebuttal 2 "Rural buses fill that gap."] in
  build_proponent_prompt "Cities should ban cars" Closing 0 h1 500 =
  build_proponent_prompt "Cities should ban cars" Closing 0 h2 500.
Proof.
  cbv zeta.
  destruct (prompt_includes_last_opponent_turn "Cities should ban cars" Closing 0
              [mkTurn Proponent TOpening 0 "Cities should ban cars.";
               mkTurn Opposition TOpening 0 "Cars serve commuters.";
               mkTurn Proponent TRebuttal 1 "Transit serves them better.";
               mkTurn Opposition TRebuttal 1 "Rural routes lack transit.";
               mkTurn Proponent TRebuttal 2 "Rural buses fill that gap."] 500
              (mkTurn Proponent TOpening 0 "Cars pollute.")) as (_ & _ & H3).
  apply H3.
  - discriminate.
  - split; intros H; discriminate H.
  - vm_compute. reflexivity.
Defined.

End PromptFacts.

(* ------------------------------------------------------------------ *)
(** ** The debate graph *)

Module DebateFacts.
Import Text Retry Extract Models Prompts Debate.
Local Open Scope nat_scope.
Local Open Scope list_scope.

Lemma pair_keys_app (ps qs : list (turn_phase * nat)) :
  pair_keys (ps ++ qs) = pair_keys ps ++ pair_keys qs.
Proof. unfold pair_keys. apply flat_map_app. Qed.

Lemma keys_upto_S (r : nat) :
  keys_upto (S r) =
  keys_upto r ++ [(TRebuttal, S r, Proponent); (TRebuttal, S r, Opposition)].
Proof.
  unfold keys_upto. rewrite seq_S, map_app, app_comm_cons, pair_keys_app.
  reflexivity.
Qed.

Lemma debate_keys_eq (N : nat) :
  debate_keys N =
  keys_upto N ++ [(TClosing, 0, Proponent); (TClosing, 0, Opposition);
                  (TVerdict, 0, Judge)].
Proof.
  unfold debate_keys, debate_pairs, keys_upto.
  rewrite app_comm_cons, pair_keys_app, <- app_assoc. reflexivity.
Qed.

Lemma length_pair_keys (ps : list (turn_phase * nat)) :
  length (pair_keys ps) = 2 * length ps.
Proof.
  induction ps as [|[p r] ps IH]; [reflexivity|].
  change (pair_keys ((p, r) :: ps))
    with ((p, r, Proponent) :: (p, r, Opposition) :: pair_keys ps).
  cbn [length]. rewrite IH. lia.
Qed.

Lemma table_run_rounds (N : nat) :
  forall k r f, r + k = N -> 1 <= r -> 3 * k + 7 <= f ->
  table_run f N (Rebuttal, r, None) =
  Some (pair_keys (map (fun i => (TRebuttal, i)) (List.seq r (S k))) ++
        [(TClosing, 0, Proponent); (TClosing, 0, Opposition); (TVerdict, 0, Judge)]).
Proof.
  induction k as [|k IH]; intros r f Hrk Hr Hf.
  - replace f with (S (S (S (S (S (S (S (f - 7)))))))) by lia.
    assert (Hlt : Nat.ltb r N = false) by (apply Nat.ltb_ge; lia).
    cbn [table_run table_step]. rewrite Hlt. reflexivity.
  - replace f with (S (S (S (f - 3)))) by lia.
    assert (Hlt : Nat.ltb r N = true) by (apply Nat.ltb_lt; lia).
    cbn [table_run table_step]. rewrite Hlt.
    rewrite (IH (S r) (f - 3)) by lia. reflexivity.
Qed.

Lemma table_sequence_eq (N : nat) :
  1 <= N -> table_sequence N = Some (pair_keys (debate_pairs N) ++ [(TVerdict, 0, Judge)]).
Proof.
  intros HN. unfold table_sequence.
  replace (4 * N + 10) with (S (S (S (4 * N + 7)))) by lia.
  cbn [table_run table_step].
  rewrite (table_run_rounds N (N - 1) 1 (4 * N + 7)) by lia.
  replace (S (N - 1)) with N by lia.
  assert (Hd : pair_keys (debate_pairs N) =
    [(TOpening, 0, Proponent); (TOpening, 0, Opposition)] ++
    pair_keys (map (fun i => (TRebuttal, i)) (List.seq 1 N)) ++
    pair_keys [(TClosing, 0)]).
  { unfold debate_pairs. now rewrite app_comm_cons, pair_keys_app. }
  rewrite Hd, <- !app_assoc. reflexivity.
Qed.

Section Graph.
Context {E : Type}.
Variable config : DebateConfig.
Variable gen : gstate -> role -> string -> nat -> outcome string E.

Lemma step_ok (n : node) (st : gstate) (n' : node) (st' : gstate) :
  step config gen n st = Ok (n', st') ->
  exists u, exec_node config gen n st = Ok u /\
            st' = apply_update st u /\ n' = next_node n st'.
Proof.
  unfold step. destruct (exec_node config gen n st) as [u|e]; intros H;
    [|discriminate].
  injection H as <- <-. eauto.
Qed.

Lemma debater_update_ok (st : gstate) (r : role) (prompt : string) (u : update) :
  debater_update config gen st r prompt = Ok u ->
  exists tp c, turn_phase_of (current_phase st) = Some tp /\
    u = mkUpdate [mkTurn r tp (current_round st) c] None None None.
Proof.
  unfold debater_update. destruct (invoke_agent config gen st r prompt);
    [|discriminate].
  destruct (turn_phase_of (current_phase st)) as [tp|]; intros H;
    [|discriminate].
  injection H as <-. eauto.
Qed.

Lemma judge_node_ok (st : gstate) (u : update) :
  judge_node config gen st = Ok u ->
  exists c v, u = mkUpdate [mkTurn Judge TVerdict 0 c] (Some Complete) None (Some v).
Proof.
  unfold judge_node.
  destruct (invoke_agent config gen st Judge (build_judge_prompt (topic st) (history st)))
    as [raw|e]; [|discriminate].
  destruct (judge_winner_confidence (clean_response raw)) as [w c].
  intros H. cbv beta iota in H. injection H as <-. eauto.
Qed.

Ltac agent_step Hu :=
  first [ unfold proponent_node in Hu | unfold opposition_node in Hu ];
  apply debater_update_ok in Hu as (tp' & c & Htp & ->);
  cbn in Htp; injection Htp as <-.

Lemma config_inv_step (N : nat) (n : node) (st : gstate) (n' : node) (st' : gstate) :
  1 <= N -> config_inv N n st -> step config gen n st = Ok (n', st') ->
  config_inv N n' st'.
Proof.
  intros HN [Hmax Hsh] Hst. apply step_ok in Hst as (u & Hu & -> & ->).
  destruct st as [tp0 mr ph r h v]; cbn in Hmax, Hsh; subst mr.
  remember (map turn_key h) as K eqn:HK. remember (is_some v) as b eqn:Hb.
  revert Hu HK Hb. destruct Hsh; intros Hu HK Hb; cbn [exec_node] in Hu.
  - agent_step Hu. split; [reflexivity|]. cbn.
    rewrite map_app, <- HK, <- Hb. apply shape_open_o.
  - agent_step Hu. split; [reflexivity|]. cbn.
    rewrite map_app, <- HK, <- Hb. apply shape_start_rebuttal.
  - injection Hu as <-. split; [reflexivity|]. cbn.
    rewrite app_nil_r, <- HK, <- Hb. apply (shape_rebuttal_p N 1). lia.
  - agent_step Hu. split; [reflexivity|]. cbn.
    rewrite map_app, <- HK, <- Hb. apply shape_rebuttal_o. exact H.
  - agent_step Hu. split; [reflexivity|]. cbn.
    rewrite map_app, <- HK, <- Hb, <- app_assoc.
    destruct r as [|r]; [lia|]. cbn [pred app].
    rewrite <- keys_upto_S.
    destruct (Nat.leb_spec N (S r)) as [Hle|Hlt].
    + replace (S r) with N by lia. apply shape_start_closing.
    + apply shape_next_round. lia.
  - injection Hu as <-. split; [reflexivity|]. cbn.
    rewrite app_nil_r, <- HK, <- Hb. rewrite Nat.add_1_r.
    apply (shape_rebuttal_p N (S r)). lia.
  - injection Hu as <-. split; [reflexivity|]. cbn.
    rewrite app_nil_r, <- HK, <- Hb. apply shape_closing_p.
  - agent_step Hu. split; [reflexivity|]. cbn.
    rewrite map_app, <- HK, <- Hb. apply shape_closing_o.
  - agent_step Hu. split; [reflexivity|]. cbn.
    rewrite map_app, <- HK, <- Hb, <- app_assoc. apply shape_judge.
  - apply judge_node_ok in Hu as (c & v' & ->). split; [reflexivity|]. cbn.
    rewrite map_app, <- HK, <- app_assoc. cbn [app turn_key phase_of round_number role_of].
    rewrite <- debate_keys_eq. apply shape_end.
  - injection Hu as <-. split; [reflexivity|]. cbn.
    rewrite app_nil_r, <- HK. destruct v; cbn in Hb |- *; [apply shape_end|].
    discriminate Hb.
Qed.

Lemma config_inv_reachable (topic0 : string) (N : nat) (n : node) (st : gstate) :
  1 <= N -> reachable config gen topic0 N n st -> config_inv N n st.
Proof.
  intros HN Hr. induction Hr as [|n st n' st' Hr IH Hst].
  - split; [reflexivity | apply shape_open_p].
  - exact (config_inv_step N n st n' st' HN IH Hst).
Qed.

Lemma run_done_reachable (topic0 : string) (N fuel : nat) :
  forall n st st',
  reachable config gen topic0 N n st ->
  run config gen fuel n st = Done st' ->
  reachable config gen topic0 N NEnd st'.
Proof.
  induction fuel as [|f IH]; intros n st st' Hr Hrun.
  - destruct n; cbn [run] in Hrun; try discriminate.
    injection Hrun as <-. exact Hr.
  - destruct n;
      [ | | | | | | cbn [run] in Hrun; injection Hrun as <-; exact Hr ];
      cbn [run] in Hrun;
      (destruct (step config gen _ st) as [[n' s']|e] eqn:Hs; [|discriminate]);
      exact (IH _ _ _ (reachable_step _ _ _ _ _ _ _ _ Hr Hs) Hrun).
Qed.

Lemma shape_end_keys (N : nat) (ph : phase) (r : nat) (K : list (turn_phase * nat * role))
      (b : bool) :
  shape N NEnd ph r K b -> K = debate_keys N /\ ph = Complete /\ b = true.
Proof.
  intros Hsh. remember NEnd as n eqn:Hn. destruct Hsh; try discriminate.
  auto.
Qed.

(** Facts about a configuration that are read off its shape. *)
Lemma shape_verdict (N : nat) (n : node) (ph : phase) (r : nat)
      (K : list (turn_phase * nat * role)) (b : bool) :
  shape N n ph r K b ->
  (b = true <-> ph = Complete) /\ (n <> NEnd -> b = false /\ ph <> Complete).
Proof.
  intros Hsh; destruct Hsh;
    (split; [split; intros; (reflexivity || discriminate) |
             intros Hn; (split; [reflexivity | discriminate]) || (now elim Hn)]).
Qed.

Lemma keys_upto_prefix (r r' : nat) :
  r <= r' -> exists rest, keys_upto r ++ rest = keys_upto r'.
Proof.
  induction 1 as [|r' _ [rest IH]].
  - exists []. apply app_nil_r.
  - exists (rest ++ [(TRebuttal, S r', Proponent); (TRebuttal, S r', Opposition)]).
    rewrite keys_upto_S, app_assoc, IH. reflexivity.
Qed.

Lemma prefix_app_trans (l1 l2 l3 : list (turn_phase * nat * role)) :
  (exists rest, l1 ++ rest = l2) -> (exists rest, l2 ++ rest = l3) ->
  exists rest, l1 ++ rest = l3.
Proof.
  intros [r1 H1] [r2 H2]. exists (r1 ++ r2). now rewrite app_assoc, H1.
Qed.

Lemma shape_prefix (N : nat) (n : node) (ph : phase) (r : nat)
      (K : list (turn_phase * nat * role)) (b : bool) :
  shape N n ph r K b -> exists rest, K ++ rest = debate_keys N.
Proof.
  intros Hsh.
  assert (Hup : forall r', r' <= N -> exists rest, keys_upto r' ++ rest = debate_keys N).
  { intros r' Hr'. apply (prefix_app_trans _ (keys_upto N)).
    - now apply keys_upto_prefix.
    - rewrite debate_keys_eq. eexists; reflexivity. }
  destruct Hsh.
  - eexists; reflexivity.
  - apply (prefix_app_trans _ (keys_upto 0)); [eexists; reflexivity|]. apply Hup; lia.
  - apply Hup; lia.
  - apply Hup; lia.
  - apply (prefix_app_trans _ (keys_upto r)); [|apply Hup; lia].
    destruct r as [|r]; [lia|]. rewrite keys_upto_S. cbn [pred].
    exists [(TRebuttal, S r, Opposition)]. now rewrite <- app_assoc.
  - apply Hup; lia.
  - apply Hup; lia.
  - apply Hup; lia.
  - rewrite debate_keys_eq. exists [(TClosing, 0, Opposition); (TVerdict, 0, Judge)].
    now rewrite <- app_assoc.
  - rewrite debate_keys_eq. exists [(TVerdict, 0, Judge)].
    now rewrite <- app_assoc.
  - exists []. apply app_nil_r.
Qed.

Lemma in_pair_keys (p : turn_phase) (r : nat) (ro : role) (ps : list (turn_phase * nat)) :
  In (p, r, ro) (pair_keys ps) -> In (p, r) ps /\ ro <> Judge.
Proof.
  unfold pair_keys. rewrite in_flat_map. intros [[p' r'] [Hin Hk]].
  destruct Hk as [Hk|[Hk|[]]]; injection Hk as <- <- <-;
    (split; [exact Hin | discriminate]).
Qed.

Lemma debate_keys_rounds (N : nat) (p : turn_phase) (r : nat) (ro : role) :
  In (p, r, ro) (debate_keys N) ->
  (p <> TRebuttal -> r = 0) /\ (p = TRebuttal -> 1 <= r <= N).
Proof.
  unfold debate_keys. rewrite in_app_iff. intros [Hin|[Hk|[]]].
  - apply in_pair_keys in Hin as [Hin _]. unfold debate_pairs in Hin.
    destruct Hin as [Hk|Hin].
    + injection Hk as <- <-. split; [intros _; reflexivity | intros Hc; discriminate Hc].
    + apply in_app_iff in Hin as [Hin|[Hk|[]]].
      * apply in_map_iff in Hin as (i & Hk & Hi). injection Hk as <- <-.
        apply in_seq in Hi. split; [intros Hne; now elim Hne | intros _; lia].
      * injection Hk as <- <-. split; [intros _; reflexivity | intros Hc; discriminate Hc].
  - injection Hk as <- <- <-. split; [intros _; reflexivity | intros Hc; discriminate Hc].
Qed.

Lemma rebuttal_rounds_keys (h : list turn) :
  rebuttal_rounds h = key_rebuttal_rounds (map turn_key h).
Proof.
  induction h as [|t h IH]; [reflexivity|].
  unfold rebuttal_rounds, key_rebuttal_rounds in *. cbn [map filter].
  destruct t as [ro p rn c]; cbn. destruct p; cbn; rewrite IH; reflexivity.
Qed.

Lemma key_rebuttal_rounds_app (k1 k2 : list (turn_phase * nat * role)) :
  key_rebuttal_rounds (k1 ++ k2) = key_rebuttal_rounds k1 ++ key_rebuttal_rounds k2.
Proof. unfold key_rebuttal_rounds. now rewrite filter_app, map_app. Qed.

Lemma key_rebuttal_rounds_debate (N : nat) :
  key_rebuttal_rounds (debate_keys N) = flat_map (fun r => [r; r]) (List.seq 1 N).
Proof.
  unfold debate_keys, debate_pairs.
  rewrite key_rebuttal_rounds_app, app_comm_cons, pair_keys_app,
    key_rebuttal_rounds_app.
  change (key_rebuttal_rounds [(TVerdict, 0, Judge)]) with (@nil nat).
  change (key_rebuttal_rounds (pair_keys [(TClosing, 0)])) with (@nil nat).
  rewrite !app_nil_r.
  assert (Hopen : forall l, key_rebuttal_rounds (pair_keys ((TOpening, 0) :: l)) =
                            key_rebuttal_rounds (pair_keys l)) by reflexivity.
  rewrite Hopen.
  induction (List.seq 1 N) as [|i l IH]; [reflexivity|].
  change (pair_keys (map (fun r => (TRebuttal, r)) (i :: l)))
    with ([(TRebuttal, i, Proponent); (TRebuttal, i, Opposition)] ++
          pair_keys (map (fun r => (TRebuttal, r)) l)).
  rewrite key_rebuttal_rounds_app, IH. reflexivity.
Qed.

Lemma step_rounds (N : nat) (n : node) (st : gstate) (n' : node) (st' : gstate) :
  config_inv N n st -> step config gen n st = Ok (n', st') ->
  (current_round st <= current_round st' \/
   (current_phase st <> Closing /\ current_phase st' = Closing /\
    current_round st' = 0)) /\
  (current_phase st <> Rebuttal -> current_phase st' = Rebuttal ->
   current_round st' = 1).
Proof.
  intros [_ Hsh] Hst. apply step_ok in Hst as (u & Hu & -> & _).
  destruct st as [tp0 mr ph r h v]; cbn in Hsh |- *.
  remember (map turn_key h) as K eqn:HK. remember (is_some v) as b eqn:Hb.
  revert Hu HK Hb. destruct Hsh; intros Hu HK Hb; cbn [exec_node] in Hu;
    [ agent_step Hu | agent_step Hu | injection Hu as <-
    | agent_step Hu | agent_step Hu | injection Hu as <- | injection Hu as <-
    | agent_step Hu | agent_step Hu | apply judge_node_ok in Hu as (c & v' & ->)
    | injection Hu as <- ];
    cbn;
    (split;
     [ first [ left; lia | right; repeat split; discriminate ]
     | intros H1 H2; first [ reflexivity | congruence ] ]).
Qed.

(** C1: for [max_rounds = N >= 1], a run that reaches [END] has a history
    of [2 N + 5] turns whose last turn is the only judge turn (phase
    verdict, round 0); its [(phase, round_number, role)] sequence is
    proponent then opposition for the opening, for each round [1..N] and
    for the closing, then the judge, and it is the sequence of the §4.1
    transition table. *)
Theorem completed_debate_transcript (topic0 : string) (N fuel : nat) (st : gstate) :
  1 <= N ->
  run config gen fuel NProponent (initial_state topic0 N) = Done st ->
  length (history st) = 2 * N + 5 /\
  (exists pre last, history st = pre ++ [last] /\
     role_of last = Judge /\ phase_of last = TVerdict /\ round_number last = 0 /\
     Forall (fun t => role_of t <> Judge) pre) /\
  map turn_key (history st) = pair_keys (debate_pairs N) ++ [(TVerdict, 0, Judge)] /\
  table_sequence N = Some (map turn_key (history st)).
Proof.
  intros HN Hrun.
  pose proof (run_done_reachable topic0 N fuel _ _ _ (reachable_init _ _ _ _) Hrun) as Hr.
  destruct (config_inv_reachable topic0 N _ _ HN Hr) as [_ Hsh].
  apply shape_end_keys in Hsh as (Hkeys & _ & _).
  unfold debate_keys in Hkeys.
  split; [|split; [|split]].
  - rewrite <- (length_map turn_key), Hkeys, length_app, length_pair_keys.
    unfold debate_pairs. cbn [length]. rewrite length_app, length_map, length_seq.
    cbn [length]. lia.
  - destruct (history st) as [|t0 h0] using rev_ind; [discriminate Hkeys|].
    rewrite map_app in Hkeys. apply app_inj_tail in Hkeys as [Hpre Hlast].
    exists h0, t0. unfold turn_key in Hlast. injection Hlast as Hp Hrn Hro.
    repeat split; try assumption.
    apply Forall_forall. intros t Ht.
    assert (Hin : In (turn_key t) (pair_keys (debate_pairs N))).
    { rewrite <- Hpre. now apply in_map. }
    unfold turn_key in Hin. now apply in_pair_keys in Hin as [_ Hj].
  - exact Hkeys.
  - rewrite Hkeys. apply table_sequence_eq. exact HN.
Qed.

(** C2: in every reachable state (with [max_rounds = N >= 1]) a turn
    outside the rebuttal phase has round 0 and a rebuttal turn a round in
    [1..N]; the rebuttal rounds of the history are a prefix of
    [1,1,2,2,...,N,N]; and a step either does not decrease [current_round]
    or moves into the closing phase with round 0, and entering the
    rebuttal phase sets the round to 1. *)
Theorem round_numbers_in_reachable_states (topic0 : string) (N : nat)
    (n : node) (st : gstate) :
  1 <= N ->
  reachable config gen topic0 N n st ->
  (forall t, In t (history st) -> phase_of t <> TRebuttal -> round_number t = 0) /\
  (forall t, In t (history st) -> phase_of t = TRebuttal ->
     1 <= round_number t <= N) /\
  (exists rest, rebuttal_rounds (history st) ++ rest =
                flat_map (fun r => [r; r]) (List.seq 1 N)) /\
  (forall n' st', step config gen n st = Ok (n', st') ->
     (current_round st <= current_round st' \/
      (current_phase st <> Closing /\ current_phase st' = Closing /\
       current_round st' = 0)) /\
     (current_phase st <> Rebuttal -> current_phase st' = Rebuttal ->
      current_round st' = 1)).
Proof.
  intros HN Hr. destruct (config_inv_reachable topic0 N _ _ HN Hr) as [Hmax Hsh].
  destruct (shape_prefix _ _ _ _ _ _ Hsh) as [rest Hrest].
  assert (Hin : forall t, In t (history st) ->
            In (phase_of t, round_number t, role_of t) (debate_keys N)).
  { intros t Ht. rewrite <- Hrest. apply in_or_app. left.
    change (phase_of t, round_number t, role_of t) with (turn_key t).
    now apply in_map. }
  split; [|split; [|split]].
  - intros t Ht. now apply (debate_keys_rounds N _ _ (role_of t) (Hin t Ht)).
  - intros t Ht. now apply (debate_keys_rounds N _ _ (role_of t) (Hin t Ht)).
  - exists (key_rebuttal_rounds rest).
    rewrite rebuttal_rounds_keys, <- key_rebuttal_rounds_app, Hrest.
    apply key_rebuttal_rounds_debate.
  - intros n' st' Hst. exact (step_rounds N n st n' st' (conj Hmax Hsh) Hst).
Qed.

(** C4: in every reachable state a verdict is set exactly when the phase
    is [complete]; before [END] there is no verdict and the phase is not
    [complete]; and the judge's single update appends the judge turn
    (verdict phase, round 0) and sets both the phase [complete] and the
    verdict. *)
Theorem verdict_iff_complete (topic0 : string) (N : nat) (n : node) (st : gstate) :
  1 <= N ->
  reachable config gen topic0 N n st ->
  (verdict st <> None <-> current_phase st = Complete) /\
  (n <> NEnd -> verdict st = None /\ current_phase st <> Complete) /\
  (forall u, exec_node config gen NJudge st = Ok u ->
     exists c v, u = mkUpdate [mkTurn Judge TVerdict 0 c] (Some Complete) None (Some v)).
Proof.
  intros HN Hr. destruct (config_inv_reachable topic0 N _ _ HN Hr) as [_ Hsh].
  destruct (shape_verdict _ _ _ _ _ _ Hsh) as [Hiff Hbefore].
  split; [|split].
  - rewrite <- Hiff. destruct (verdict st); cbn; split; congruence.
  - intros Hn. destruct (Hbefore Hn) as [Hb Hph]. split; [|exact Hph].
    destruct (verdict st); [discriminate Hb | reflexivity].
  - intros u Hu. exact (judge_node_ok st u Hu).
Qed.

End Graph.

Lemma sample_run_done :
  run sample_config sample_gen 25 NProponent (initial_state "Cities should ban cars" 2) =
  Done (final_state (sample_run 2)).
Proof. vm_compute. reflexivity. Qed.

Lemma sample_final_reachable :
  reachable sample_config sample_gen "Cities should ban cars" 2 NEnd
    (final_state (sample_run 2)).
Proof.
  exact (run_done_reachable sample_config sample_gen "Cities should ban cars" 2 25
           NProponent (initial_state "Cities should ban cars" 2)
           (final_state (sample_run 2))
           (reachable_init _ _ _ _) sample_run_done).
Qed.

Lemma completed_debate_transcript_witness :
  1 <= 2 /\ sample_run 2 = Done (final_state (sample_run 2)) /\
  length (history (final_state (sample_run 2))) = 9 /\
  table_sequence 2 = Some (map turn_key (history (final_state (sample_run 2)))).
Proof.
  assert (HN : 1 <= 2) by lia.
  assert (Hrun : run sample_config sample_gen 25 NProponent
                   (initial_state "Cities should ban cars" 2) =
                 Done (final_state (sample_run 2)))
    by (vm_compute; reflexivity).
  destruct (completed_debate_transcript sample_config sample_gen
              "Cities should ban cars" 2 25 (final_state (sample_run 2)) HN Hrun)
    as (Hlen & _ & _ & Htab).
  exact (conj HN (conj Hrun (conj Hlen Htab))).
Defined.

Lemma round_numbers_in_reachable_states_witness :
  1 <= 2 /\
  reachable sample_config sample_gen "Cities should ban cars" 2 NEnd
    (final_state (sample_run 2)) /\
  (exists rest, rebuttal_rounds (history (final_state (sample_run 2))) ++ rest =
                [1; 1; 2; 2]).
Proof.
  assert (HN : 1 <= 2) by lia.
  destruct (round_numbers_in_reachable_states sample_config sample_gen
              "Cities should ban cars" 2 NEnd (final_state (sample_run 2)) HN sample_final_reachable)
    as (_ & _ & Hpre & _).
  exact (conj HN (conj sample_final_reachable Hpre)).
Defined.

Lemma verdict_iff_complete_witness :
  1 <= 2 /\
  reachable sample_config sample_gen "Cities should ban cars" 2 NEnd
    (final_state (sample_run 2)) /\
  (verdict (final_state (sample_run 2)) <> None <->
   current_phase (final_state (sample_run 2)) = Complete).
Proof.
  assert (HN : 1 <= 2) by lia.
  destruct (verdict_iff_complete sample_config sample_gen
              "Cities should ban cars" 2 NEnd (final_state (sample_run 2)) HN sample_final_reachable)
    as (Hiff & _ & _).
  exact (conj HN (conj sample_final_reachable Hiff)).
Defined.

End DebateFacts.

(* ================================================================== *)
(** ** Further properties of the helpers *)

Module BackoffFacts.
Import Retry Backoff.
Local Open Scope nat_scope.

Section Loop.
Context {A E : Type}.
Variable func : nat -> outcome A E.
Variable max_retries : nat.
Variables base_delay max_delay exponential_base : QArith_base.Q.

Lemma retry_sleep_loop_spec (fuel attempt : nat) (last : option E) :
  attempt + fuel = S max_retries -> attempt <= max_retries ->
  let '(res, sleeps) :=
    retry_sleep_loop func max_retries base_delay max_delay exponential_base
      fuel attempt last in
  res = retry_loop func max_retries fuel attempt last /\
  calls_of res = attempt + S (length sleeps) /\
  calls_of res <= S max_retries /\
  sleeps = map (backoff_delay base_delay max_delay exponential_base)
               (List.seq attempt (length sleeps)) /\
  (forall c, res <> RaisedNone c).
Proof.
  revert attempt last; induction fuel as [|fuel IH]; intros attempt last Hf Ha; [lia|].
  cbn [retry_sleep_loop retry_loop].
  destruct (func attempt) as [a|e].
  - cbn. repeat split; try lia. intros c Hc; discriminate Hc.
  - destruct (Nat.eqb_spec attempt max_retries) as [->|Hne].
    + cbn. repeat split; try lia. intros c Hc; discriminate Hc.
    + specialize (IH (S attempt) (Some e) ltac:(lia) ltac:(lia)).
      destruct (retry_sleep_loop func max_retries base_delay max_delay exponential_base
                  fuel (S attempt) (Some e)) as [res sleeps].
      destruct IH as (Hres & Hcalls & Hle & Hs & Hnone).
      repeat split.
      * exact Hres.
      * cbn [length]. rewrite Hcalls. lia.
      * exact Hle.
      * cbn [length List.seq map]. f_equal. exact Hs.
      * exact Hnone.
Qed.

End Loop.

(** [retry_with_backoff] sleeps once between two consecutive calls and
    never after the last one: the [i]-th sleep waits
    [min(base_delay * exponential_base ** i, max_delay)], there are at
    most [max_retries] of them, the result is the one of [wrapper], and
    the final [raise last_exception] is never reached. *)
Theorem retry_sleeps_between_calls {A E : Type} (func : nat -> outcome A E)
    (max_retries : nat) (base_delay max_delay exponential_base : QArith_base.Q) :
  let '(res, sleeps) :=
    wrapper_sleeps func max_retries base_delay max_delay exponential_base in
  res = wrapper func max_retries /\
  calls_of res = S (length sleeps) /\
  length sleeps <= max_retries /\
  sleeps = map (backoff_delay base_delay max_delay exponential_base)
               (List.seq 0 (length sleeps)) /\
  (forall c, res <> RaisedNone c).
Proof.
  unfold wrapper_sleeps, wrapper.
  pose proof (retry_sleep_loop_spec func max_retries base_delay max_delay
                exponential_base (S max_retries) 0 None ltac:(lia) ltac:(lia)) as H.
  destruct (retry_sleep_loop _ _ _ _ _ _ _ _) as [res sleeps].
  destruct H as (Hres & Hcalls & Hle & Hs & Hnone).
  repeat split; try assumption; lia.
Qed.

End BackoffFacts.

Module ValidateFacts.
Import Text Retry Extract Validate PromptFacts.

Lemma lower_app (a b : string) : lower (a ++ b) = lower a ++ lower b.
Proof. induction a as [|c a IH]; cbn; [reflexivity | now rewrite IH]. Qed.

Lemma filter_nil_iff {X : Type} (f : X -> bool) (l : list X) :
  filter f l = [] <-> (forall x, In x l -> f x = false).
Proof.
  induction l as [|y l IH]; cbn; [split; [intros _ x []|reflexivity]|].
  destruct (f y) eqn:Hy; split.
  - discriminate.
  - intros H. rewrite (H y (or_introl eq_refl)) in Hy. discriminate.
  - intros Hf x [<-|Hx]; [exact Hy|]. now apply IH.
  - intros H. apply IH. intros x Hx. apply H. now right.
Qed.

(** A result [Ok (true, [])] means that every required header is found. *)
Lemma validate_ok_iff (content : string) (req : list string) (strict : bool) :
  validate_structured_output content req strict = Ok (true, []) <->
  (forall h, In h req ->
     existsb (fun pattern => str_in pattern (lower content)) (header_patterns h) = true).
Proof.
  unfold validate_structured_output.
  destruct (filter _ req) as [|x l] eqn:Hf.
  - cbn. rewrite andb_false_r. split; [intros _|intros _; reflexivity].
    intros h Hh. apply (proj1 (filter_nil_iff _ _) Hf) in Hh.
    now apply negb_false_iff in Hh.
  - split.
    + destruct strict; cbn; discriminate.
    + intros H. exfalso.
      assert (Hx : In x (filter (fun header => negb (existsb
                (fun pattern => str_in pattern (lower content))
                (header_patterns header))) req)) by (rewrite Hf; now left).
      apply filter_In in Hx as [Hx Hneg]. rewrite (H x Hx) in Hneg. discriminate.
Qed.

(** [validate_structured_output]: a text that passes still passes (also
    in strict mode) when any text is added before or after it; the check
    ignores letter case; strict mode raises exactly when the non-strict
    call reports missing headers, with the same list, and the non-strict
    call never raises and reports valid exactly when nothing is missing. *)
Theorem validation_stable_under_extension (content pre post : string)
    (req : list string) (strict : bool) :
  (validate_structured_output content req strict = Ok (true, []) ->
   validate_structured_output (pre ++ content ++ post) req strict = Ok (true, [])) /\
  (forall content', lower content' = lower content ->
   validate_structured_output content' req strict =
   validate_structured_output content req strict) /\
  (forall missing, validate_structured_output content req true = Err missing <->
     validate_structured_output content req false = Ok (false, missing)) /\
  (exists is_valid missing,
     validate_structured_output content req false = Ok (is_valid, missing) /\
     (is_valid = true <-> missing = [])).
Proof.
  split; [|split; [|split]].
  - rewrite !validate_ok_iff. intros H h Hh.
    pose proof (H h Hh) as Hex. apply existsb_exists in Hex as (p & Hp & Hin).
    apply existsb_exists. exists p. split; [exact Hp|].
    rewrite !lower_app. apply str_in_app_r, str_in_app_l. exact Hin.
  - intros content' Heq. unfold validate_structured_output. now rewrite Heq.
  - intros missing. unfold validate_structured_output.
    destruct (filter _ req) as [|x l]; cbn; split; intros H; try discriminate;
      injection H as <-; reflexivity.
  - unfold validate_structured_output. cbn [andb].
    destruct (filter _ req) as [|x l]; cbn.
    + exists true, []. split; [reflexivity | split; reflexivity].
    + exists false, (x :: l). split; [reflexivity | split; discriminate].
Qed.

End ValidateFacts.

Module HistoryFacts.
Import Text Models Prompts HistoryFormat.
Local Open Scope nat_scope.

(** [format_history_for_context]: an empty history gives
    ["[No previous turns]"]; [max_turns = k > 0] formats the last
    [min(k, len(history))] turns in order; [max_turns = 0] formats every
    turn, and a negative [max_turns = -k] formats all turns but the
    oldest [k] ([history[k:]]). *)
Theorem format_history_slices (history : list turn) (max_chars_per_turn : Z) :
  (forall max_turns,
     format_history_for_context [] max_turns max_chars_per_turn = "[No previous turns]") /\
  (forall max_turns, history <> [] -> (0 < max_turns)%Z ->
     exists older recent,
       app older recent = history /\
       length recent = Nat.min (Z.to_nat max_turns) (length history) /\
       format_history_for_context history max_turns max_chars_per_turn =
       String.concat (NL ++ "---" ++ NL) (map (format_turn max_chars_per_turn) recent)) /\
  (forall k : nat, history <> [] ->
     format_history_for_context history (- Z.of_nat k) max_chars_per_turn =
     String.concat (NL ++ "---" ++ NL)
       (map (format_turn max_chars_per_turn) (skipn k history))).
Proof.
  split; [|split].
  - intros max_turns. reflexivity.
  - intros max_turns Hne Hpos.
    exists (firstn (length history - Z.to_nat max_turns) history),
           (skipn (length history - Z.to_nat max_turns) history).
    split; [apply firstn_skipn|]. split; [rewrite length_skipn; lia|].
    destruct history as [|t h]; [now elim Hne|].
    unfold format_history_for_context, py_slice_from.
    destruct (Z.leb_spec 0 (- max_turns)) as [Hle|Hlt]; [lia|].
    rewrite Z.opp_involutive. reflexivity.
  - intros k Hne. destruct history as [|t h]; [now elim Hne|].
    unfold format_history_for_context, py_slice_from.
    rewrite Z.opp_involutive.
    destruct (Z.leb_spec 0 (Z.of_nat k)) as [Hle|Hlt]; [|lia].
    rewrite Nat2Z.id. reflexivity.
Qed.

End HistoryFacts.

Module StateHelperFacts.
Import Text Models StateHelpers.
Local Open Scope nat_scope.

Lemma filter_rev {X : Type} (f : X -> bool) (l : list X) :
  filter f (rev l) = rev (filter f l).
Proof.
  induction l as [|a l IH]; [reflexivity|].
  cbn [rev filter]. rewrite filter_app, IH. cbn [filter].
  destruct (f a); cbn; [reflexivity | apply app_nil_r].
Qed.

Lemma find_first {X : Type} (f : X -> bool) (l : list X) :
  find f l = match filter f l with [] => None | x :: _ => Some x end.
Proof.
  induction l as [|a l IH]; [reflexivity|]. cbn. destruct (f a); [reflexivity | exact IH].
Qed.

Lemma role_str_eqb (a b : role) : String.eqb (role_str a) (role_str b) = role_eqb a b.
Proof. destruct a, b; reflexivity. Qed.

(** [get_last_turn(role)] for a non-empty role name is the last element
    of [get_turns_by_role(role)] ([None] when there is none, e.g. for an
    unknown name); without a role (or with [""]) it is the last turn of
    the history, [None] for an empty history.  [get_turns_by_role] on a
    role name is the comprehension the prompt builders use. *)
Theorem get_last_turn_is_last_of_role (history : list turn) :
  (forall name, name <> "" ->
     get_last_turn history (Some name) = py_last (get_turns_by_role history name)) /\
  get_last_turn history None = py_last history /\
  get_last_turn history (Some "") = py_last history /\
  (forall r, get_turns_by_role history (role_str r) = turns_of r history).
Proof.
  split; [|split; [|split]].
  - intros name Hne. unfold get_last_turn, get_turns_by_role, py_last.
    destruct history as [|t h]; [reflexivity|].
    destruct (String.eqb_spec name "") as [Heq|_]; [contradiction|].
    rewrite find_first, filter_rev. reflexivity.
  - destruct history; reflexivity.
  - destruct history; reflexivity.
  - intros r. unfold get_turns_by_role, turns_of. apply filter_ext.
    intros t. apply role_str_eqb.
Qed.

Lemma filter_role_unknown (history : list turn) (name : string) :
  ~ In name ["proponent"; "opposition"; "judge"] ->
  get_turns_by_role history name = [].
Proof.
  intros Hn. induction history as [|t h IH]; [reflexivity|].
  unfold get_turns_by_role in *. cbn.
  destruct (String.eqb_spec (role_str (role_of t)) name) as [<-|_]; [|exact IH].
  exfalso. apply Hn. destruct (role_of t); cbn; tauto.
Qed.

Lemma filter_phase_unknown (history : list turn) (name : string) :
  ~ In name ["opening"; "rebuttal"; "closing"; "verdict"] ->
  get_turns_by_phase history name = [].
Proof.
  intros Hn. induction history as [|t h IH]; [reflexivity|].
  unfold get_turns_by_phase in *. cbn.
  destruct (String.eqb_spec (turn_phase_str (phase_of t)) name) as [<-|_]; [|exact IH].
  exfalso. apply Hn. destruct (phase_of t); cbn; tauto.
Qed.

(** Every turn is returned by exactly one of [get_turns_by_role] on the
    three role names and by exactly one of [get_turns_by_phase] on the
    four phase names (their lengths add up to the history's); any other
    name, such as ["complete"] or ["Proponent"], gives an empty list. *)
Theorem turns_by_role_and_phase_partition (history : list turn) :
  length (get_turns_by_role history "proponent") +
  length (get_turns_by_role history "opposition") +
  length (get_turns_by_role history "judge") = length history /\
  length (get_turns_by_phase history "opening") +
  length (get_turns_by_phase history "rebuttal") +
  length (get_turns_by_phase history "closing") +
  length (get_turns_by_phase history "verdict") = length history /\
  (forall name, ~ In name ["proponent"; "opposition"; "judge"] ->
     get_turns_by_role history name = []) /\
  (forall name, ~ In name ["opening"; "rebuttal"; "closing"; "verdict"] ->
     get_turns_by_phase history name = []).
Proof.
  split; [|split; [|split]].
  - induction history as [|t h IH]; [reflexivity|].
    unfold get_turns_by_role in *. cbn.
    destruct (role_of t); cbn; lia.
  - induction history as [|t h IH]; [reflexivity|].
    unfold get_turns_by_phase in *. cbn.
    destruct (phase_of t); cbn; lia.
  - apply filter_role_unknown.
  - apply filter_phase_unknown.
Qed.

End StateHelperFacts.

Module ExtractLiteralFacts.
Import Text Extract RegexShape.
Local Open Scope nat_scope.

Lemma star_space_cont (k : cont) (s : string) (g : option string) (x : option string) :
  star_space k s g = Some x -> exists s', k s' g = Some x.
Proof.
  induction s as [|d t IH]; cbn; intros H; [eauto|].
  destruct (is_space d); [|eauto].
  destruct (star_space k t g) as [y|] eqn:E; [|eauto].
  injection H as <-. exact (IH eq_refl).
Qed.

Lemma nogroup_cont (r : regex) :
  nogroup r = true ->
  forall k s g x, match_here r k s g = Some x -> exists s', k s' g = Some x.
Proof.
  induction r as [| c | r1 IH1 r2 IH2 | r1 IH1 r2 IH2 | r1 IH1 | | | r1 IH1];
    cbn [nogroup match_here]; intros Hr k s g x H; try discriminate Hr.
  - eauto.
  - destruct s as [|d t]; [discriminate|].
    destruct (Ascii.eqb c d); [eauto | discriminate].
  - apply andb_prop in Hr as [H1 H2].
    destruct (IH1 H1 _ _ _ _ H) as [s1 Hs1]. exact (IH2 H2 _ _ _ _ Hs1).
  - apply andb_prop in Hr as [H1 H2].
    destruct (match_here r1 k s g) as [y|] eqn:E.
    + injection H as <-. exact (IH1 H1 _ _ _ _ E).
    + exact (IH2 H2 _ _ _ _ H).
  - destruct (match_here r1 k s g) as [y|] eqn:E; [|eauto].
    injection H as <-. exact (IH1 Hr _ _ _ _ E).
  - exact (star_space_cont _ _ _ _ H).
  - destruct s as [|d t]; [discriminate|].
    destruct (is_space d); [exact (star_space_cont _ _ _ _ H) | discriminate].
Qed.

Lemma lit_cont (w : string) :
  forall k s g x, match_here (lit w) k s g = Some x ->
  exists t, s = w ++ t /\ k t g = Some x.
Proof.
  induction w as [|c w IH]; intros k s g x H.
  - exists s. split; [reflexivity | exact H].
  - destruct w as [|c' w'].
    + cbn in H. destruct s as [|d t]; [discriminate|].
      destruct (Ascii.eqb_spec c d) as [<-|]; [|discriminate].
      exists t. split; [reflexivity | exact H].
    + change (lit (String c (String c' w'))) with (RSeq (RChar c) (lit (String c' w'))) in H.
      cbn [match_here] in H. destruct s as [|d t]; [discriminate|].
      destruct (Ascii.eqb_spec c d) as [<-|]; [|discriminate].
      destruct (IH _ _ _ _ H) as [t' [-> Ht']].
      exists t'. split; [reflexivity | exact Ht'].
Qed.

Lemma str_length_app (a t : string) :
  String.length (a ++ t) = String.length a + String.length t.
Proof. induction a as [|c a IH]; cbn; [reflexivity | now rewrite IH]. Qed.

Lemma substring_app_len (a t : string) :
  substring 0 (String.length (a ++ t) - String.length t) (a ++ t) = a.
Proof.
  rewrite str_length_app. replace (String.length a + String.length t - String.length t)
    with (String.length a) by lia.
  induction a as [|c a IH]; cbn; [destruct t; reflexivity | now rewrite IH].
Qed.

Lemma tok3_cont (a b c : string) (k : cont) (s : string) (g x : option string) :
  match_here (tok3 a b c) k s g = Some x ->
  exists s' w, In w [a; b; c] /\ k s' (Some w) = Some x.
Proof.
  unfold tok3. cbn [match_here].
  destruct (match_here (lit a) _ s g) as [y|] eqn:Ea.
  - intros H. injection H as <-. apply lit_cont in Ea as [t [-> Ht]].
    rewrite substring_app_len in Ht. exists t, a. split; [left; reflexivity | exact Ht].
  - destruct (match_here (lit b) _ s g) as [y|] eqn:Eb.
    + intros H. injection H as <-. apply lit_cont in Eb as [t [-> Ht]].
      rewrite substring_app_len in Ht. exists t, b.
      split; [right; left; reflexivity | exact Ht].
    + intros H. apply lit_cont in H as [t [-> Ht]].
      rewrite substring_app_len in Ht. exists t, c.
      split; [right; right; left; reflexivity | exact Ht].
Qed.

Lemma seq_groups (a b c : string) (rs : list regex) :
  Forall (fun r => nogroup r = true \/ r = tok3 a b c) rs ->
  forall k s g x, match_here (seq rs) k s g = Some x ->
  exists s' g', k s' g' = Some x /\
                (g' = g \/ exists w, In w [a; b; c] /\ g' = Some w) /\
                (In (tok3 a b c) rs -> exists w, In w [a; b; c] /\ g' = Some w).
Proof.
  unfold seq. induction 1 as [|r rs Hr Hrs IH]; intros k s g x H.
  - exists s, g. split; [exact H | split; [left; reflexivity | intros []]].
  - cbn [fold_right match_here] in H. destruct Hr as [Hng | ->].
    + destruct (nogroup_cont r Hng _ _ _ _ H) as [s1 Hs1].
      destruct (IH _ _ _ _ Hs1) as (s2 & g2 & Hk & Hg & Htok).
      exists s2, g2. split; [exact Hk | split; [exact Hg|]].
      intros [Heq | Hin]; [|exact (Htok Hin)].
      subst r. discriminate Hng.
    + destruct (tok3_cont a b c _ _ _ _ H) as (s1 & w & Hw & Hs1).
      destruct (IH _ _ _ _ Hs1) as (s2 & g2 & Hk & [-> | Hg] & _).
      * exists s2, (Some w). split; [exact Hk | split; [right; eauto | eauto]].
      * exists s2, g2. split; [exact Hk | split; [right; exact Hg | eauto]].
Qed.

Lemma search_groups (a b c : string) (rs : list regex) :
  Forall (fun r => nogroup r = true \/ r = tok3 a b c) rs ->
  In (tok3 a b c) rs ->
  forall s x, search (seq rs) s = Some x ->
  exists w, In w [a; b; c] /\ x = Some w.
Proof.
  intros Hrs Htok s. induction s as [|d t IH]; intros x H; cbn [search] in H;
    destruct (match_here (seq rs) (fun _ g => Some g) _ None) as [y|] eqn:E;
    try (exact (IH x H)); try discriminate H;
    injection H as <-; destruct (seq_groups _ _ _ _ Hrs _ _ _ _ E) as (s' & g' & Hk & _ & Hg);
    injection Hk as <-; exact (Hg Htok).
Qed.

Lemma first_match_groups (a b c : string) (ps : list regex) :
  Forall (fun p => exists rs, p = seq rs /\ In (tok3 a b c) rs /\
            Forall (fun r => nogroup r = true \/ r = tok3 a b c) rs) ps ->
  forall s x, first_match ps s = Some x ->
  exists w, In w [a; b; c] /\ x = Some w.
Proof.
  induction 1 as [|p ps [rs [-> [Htok Hrs]]] Hps IH]; intros s x H; [discriminate|].
  cbn [first_match] in H. destruct (search (seq rs) s) as [y|] eqn:E.
  - injection H as <-. exact (search_groups a b c rs Hrs Htok s y E).
  - exact (IH s x H).
Qed.

Ltac patterns_ok :=
  repeat (apply Forall_cons;
          [ eexists; split; [reflexivity|]; split;
            [ repeat (first [ left; reflexivity | right ]) | ];
            repeat (apply Forall_cons;
                    [ first [ left; reflexivity | right; reflexivity ] | ]);
            apply Forall_nil
          | ]);
  apply Forall_nil.

Lemma winner_patterns_ok :
  Forall (fun p => exists rs, p = seq rs /\
            In (tok3 "proponent" "opposition" "tie") rs /\
            Forall (fun r => nogroup r = true \/
                             r = tok3 "proponent" "opposition" "tie") rs)
         winner_patterns.
Proof. unfold winner_patterns. patterns_ok. Qed.

Lemma confidence_patterns_ok :
  Forall (fun p => exists rs, p = seq rs /\
            In (tok3 "high" "medium" "low") rs /\
            Forall (fun r => nogroup r = true \/ r = tok3 "high" "medium" "low") rs)
         confidence_patterns.
Proof. unfold confidence_patterns. patterns_ok. Qed.

Lemma extraction_literals (content : string) :
  (extract_winner_from_text content = None \/
   exists w, In w ["proponent"; "opposition"; "tie"] /\
             extract_winner_from_text content = Some w) /\
  (exists c, In c ["high"; "medium"; "low"] /\
             extract_confidence_from_text content = Some c) /\
  In (fst (judge_winner_confidence content)) ["proponent"; "opposition"; "tie"] /\
  In (snd (judge_winner_confidence content)) ["high"; "medium"; "low"].
Proof.
  assert (Hw : extract_winner_from_text content = None \/
               exists w, In w ["proponent"; "opposition"; "tie"] /\
                         extract_winner_from_text content = Some w).
  { unfold extract_winner_from_text.
    destruct (first_match winner_patterns (lower content)) as [x|] eqn:E;
      [|left; reflexivity].
    right. exact (first_match_groups _ _ _ _ winner_patterns_ok _ _ E). }
  assert (Hc : exists c, In c ["high"; "medium"; "low"] /\
                         extract_confidence_from_text content = Some c).
  { unfold extract_confidence_from_text.
    destruct (first_match confidence_patterns (lower content)) as [x|] eqn:E.
    - destruct (first_match_groups _ _ _ _ confidence_patterns_ok _ _ E)
        as (w & Hin & ->).
      exists w. split; [exact Hin | reflexivity].
    - exists "medium". split; [right; left; reflexivity | reflexivity]. }
  split; [exact Hw | split; [exact Hc|]].
  unfold judge_winner_confidence. cbn [fst snd]. split.
  - destruct Hw as [-> | (w & Hin & ->)]; [cbn; tauto|].
    destruct Hin as [<-|[<-|[<-|[]]]]; cbn; tauto.
  - destruct Hc as (c & Hin & ->).
    destruct Hin as [<-|[<-|[<-|[]]]]; cbn; tauto.
Qed.

(** [extract_winner_from_text] returns [None] or one of the three words
    of its group, and [extract_confidence_from_text] always returns one
    of ["high"], ["medium"], ["low"], whatever the text; so the winner
    and the confidence [judge_node] derives are always among the values
    [JudgeVerdict] allows. *)
Theorem extraction_returns_literals (content : string) :
  (extract_winner_from_text content = None \/
   exists w, In w ["proponent"; "opposition"; "tie"] /\
             extract_winner_from_text content = Some w) /\
  (exists c, In c ["high"; "medium"; "low"] /\
             extract_confidence_from_text content = Some c) /\
  In (fst (judge_winner_confidence content)) ["proponent"; "opposition"; "tie"] /\
  In (snd (judge_winner_confidence content)) ["high"; "medium"; "low"].
Proof. exact (extraction_literals content). Qed.

End ExtractLiteralFacts.

Module TextMoreFacts.
Import Text TextFacts.
Local Open Scope nat_scope.

Lemma split_aux_space2 (cur : string) (c d : ascii) (t : string) :
  is_space c = true -> is_space d = true ->
  split_aux cur (String c (String d t)) = split_aux cur (String d t).
Proof. intros Hc Hd. cbn [split_aux]. rewrite Hc, Hd. destruct cur; reflexivity. Qed.

Lemma split_aux_cons_ext (c : ascii) (X Y : string) :
  (forall cur, split_aux cur X = split_aux cur Y) ->
  forall cur, split_aux cur (String c X) = split_aux cur (String c Y).
Proof.
  intros H cur. cbn [split_aux].
  destruct (is_space c); [destruct cur; rewrite ?H; reflexivity | apply H].
Qed.

Lemma split_aux_app_ext (p X Y : string) :
  (forall cur, split_aux cur X = split_aux cur Y) ->
  forall cur, split_aux cur (p ++ X) = split_aux cur (p ++ Y).
Proof.
  induction p as [|c p IH]; intros H; [exact H|].
  change (forall cur, split_aux cur (String c (p ++ X)) = split_aux cur (String c (p ++ Y))).
  apply split_aux_cons_ext. exact (IH H).
Qed.

Lemma split_aux_nls1 (m : nat) (X : string) (cur : string) :
  1 <= m -> split_aux cur (nls m ++ X) = split_aux cur (nls 1 ++ X).
Proof.
  induction m as [|m IH]; intros Hm; [lia|].
  destruct m as [|m]; [reflexivity|].
  change (nls (S (S m)) ++ X) with (String nl (String nl (nls m ++ X))).
  rewrite split_aux_space2 by reflexivity.
  change (String nl (nls m ++ X)) with (nls (S m) ++ X). apply IH. lia.
Qed.

Lemma split_aux_nls (m m' : nat) (X : string) (cur : string) :
  1 <= m -> 1 <= m' -> split_aux cur (nls m ++ X) = split_aux cur (nls m' ++ X).
Proof. intros Hm Hm'. rewrite (split_aux_nls1 m), (split_aux_nls1 m'); auto. Qed.

Lemma replace_crlf_split (s : string) :
  forall cur, split_aux cur (replace_crlf s) = split_aux cur s.
Proof.
  remember (String.length s) as m eqn:Hm. revert s Hm.
  induction m as [m IH] using lt_wf_ind. intros s Hm.
  destruct s as [|c t]; [reflexivity|]. cbn in Hm.
  cbn [replace_crlf]. destruct (Ascii.eqb_spec c cr) as [->|Hne].
  - destruct t as [|d t']; [reflexivity|]. cbn in Hm.
    destruct (Ascii.eqb_spec d nl) as [->|Hd].
    + intros cur. rewrite (split_aux_space2 cur cr nl t' eq_refl eq_refl). revert cur.
      apply split_aux_cons_ext. apply (IH (String.length t')); [lia | reflexivity].
    + apply split_aux_cons_ext.
      apply (IH (String.length (String d t'))); [cbn; lia | reflexivity].
  - apply split_aux_cons_ext. apply (IH (String.length t)); [lia | reflexivity].
Qed.

Lemma collapse_nl_split (s : string) :
  forall n cur, split_aux cur (collapse_nl n s) = split_aux cur (nls n ++ s).
Proof.
  induction s as [|c t IH]; intros n cur.
  - cbn [collapse_nl]. unfold emit_run. destruct (Nat.leb_spec 3 n).
    + rewrite <- (append_empty_r (nls 2)). apply split_aux_nls; lia.
    + rewrite append_empty_r. reflexivity.
  - cbn [collapse_nl]. destruct (Ascii.eqb_spec c nl) as [->|Hne].
    + rewrite IH, nls_S_app. reflexivity.
    + assert (Hrest : forall cur', split_aux cur' (String c (collapse_nl 0 t)) =
                                   split_aux cur' (String c t)).
      { apply split_aux_cons_ext. intros cur'. apply IH. }
      unfold emit_run. destruct (Nat.leb_spec 3 n).
      * rewrite (split_aux_nls 2 n) by lia. revert cur.
        apply split_aux_app_ext. exact Hrest.
      * revert cur. apply split_aux_app_ext. exact Hrest.
Qed.

Lemma rstrip_split (s : string) : forall cur, split_aux cur (rstrip s) = split_aux cur s.
Proof.
  induction s as [|c t IH]; intros cur; [reflexivity|].
  rewrite rstrip_cons. destruct (rstrip t) as [|a r] eqn:E.
  - destruct (is_space c) eqn:Hc.
    + cbn [split_aux]. rewrite Hc. rewrite <- IH. destruct cur; reflexivity.
    + cbn [split_aux]. rewrite Hc. rewrite <- IH. reflexivity.
  - revert cur. apply split_aux_cons_ext. exact IH.
Qed.

Lemma lstrip_split (s : string) : split_aux "" (lstrip s) = split_aux "" s.
Proof.
  induction s as [|c t IH]; [reflexivity|]. cbn [lstrip].
  destruct (is_space c) eqn:Hc; [|reflexivity].
  rewrite IH. cbn [split_aux]. rewrite Hc. reflexivity.
Qed.

Lemma clean_response_split (x : string) : split (clean_response x) = split x.
Proof.
  unfold split, clean_response, strip, sub_nl3.
  rewrite rstrip_split, lstrip_split, collapse_nl_split. apply replace_crlf_split.
Qed.

(** [clean_response] never changes the words of a text: [text.split()]
    is the same before and after, so [count_words] is too. *)
Theorem clean_response_keeps_words (x : string) :
  split (clean_response x) = split x /\ count_words (clean_response x) = count_words x.
Proof.
  pose proof (clean_response_split x) as H.
  split; [exact H | unfold count_words; now rewrite H].
Qed.

Lemma truncate_id (x : string) (k : nat) : count_words x <= k -> truncate_response x k = x.
Proof.
  intros H. unfold truncate_response, count_words in *.
  destruct (Nat.leb_spec (length (split x)) k); [reflexivity | lia].
Qed.

Lemma truncate_count_le (x : string) (k : nat) : count_words (truncate_response x k) <= k.
Proof.
  destruct (Nat.le_gt_cases (count_words x) k) as [Hle | Hgt].
  - rewrite truncate_id by exact Hle. exact Hle.
  - destruct (truncate_over_limit x k Hgt) as [n ->].
    rewrite count_words_from.
    eapply Nat.le_trans; [apply count_from_prefix|].
    rewrite count_concat_words by (apply Forall_firstn_words, split_words).
    rewrite length_firstn. lia.
Qed.

(** Truncating again with the same or a larger limit changes nothing,
    and the words left by the two steps [clean_response] then
    [truncate_response] of the debater nodes are at most the limit and
    at most the words of the model's raw answer. *)
Theorem truncate_response_stable (x : string) (k k' : nat) :
  (k <= k' -> truncate_response (truncate_response x k) k' = truncate_response x k) /\
  count_words (truncate_response (clean_response x) k) <= Nat.min k (count_words x).
Proof.
  split.
  - intros Hk. apply truncate_id. pose proof (truncate_count_le x k). lia.
  - assert (Hc : count_words (clean_response x) = count_words x)
      by (unfold count_words; now rewrite clean_response_split).
    pose proof (truncate_count_le (clean_response x) k) as Hle.
    destruct (Nat.le_gt_cases (count_words (clean_response x)) k) as [Hs | Hg].
    + rewrite truncate_id by exact Hs. lia.
    + lia.
Qed.

End TextMoreFacts.

(* ================================================================== *)
(** ** How many supersteps a debate takes, and when it completes *)

Module GraphStepFacts.
Import Text Retry Extract Models Prompts Debate DebateFacts Steps.
Local Open Scope nat_scope.
Local Open Scope list_scope.

Lemma retry_loop_some_ok {A E : Type} (func : nat -> outcome A E) (m : nat) :
  forall fuel attempt last,
  attempt + fuel = S m ->
  (exists j a, attempt <= j <= m /\ func j = Ok a) ->
  exists a c, retry_loop func m fuel attempt last = Returned a c.
Proof.
  induction fuel as [|f IH]; intros attempt last Hf (j & a & Hj & Hja); [lia|].
  cbn [retry_loop]. destruct (func attempt) as [a'|e] eqn:Hfa; [eauto|].
  assert (Hne : j <> attempt) by (intros ->; congruence).
  destruct (Nat.eqb_spec attempt m) as [->|Hm]; [lia|].
  apply IH; [lia|]. exists j, a. split; [lia | exact Hja].
Qed.

Lemma wrapper_returns {A E : Type} (func : nat -> outcome A E) (m : nat) :
  (exists j a, j <= m /\ func j = Ok a) -> exists a c, wrapper func m = Returned a c.
Proof.
  intros (j & a & Hj & Hja). apply retry_loop_some_ok; [lia|].
  exists j, a. split; [lia | exact Hja].
Qed.

Lemma steps_left_pos (N : nat) (n : node) (ph : phase) (r : nat) :
  n <> NEnd -> 1 <= steps_left N n ph r.
Proof. intros Hn. destruct n, ph; cbn; lia || now elim Hn. Qed.

Section Steps.
Context {E : Type}.
Variable config : DebateConfig.
Variable gen : gstate -> role -> string -> nat -> outcome string E.

Ltac agent_step Hu :=
  first [ unfold proponent_node in Hu | unfold opposition_node in Hu ];
  apply debater_update_ok in Hu as (tp' & c & Htp & ->);
  cbn in Htp; injection Htp as <-.

(** Every node run from a configuration of a run brings it one step
    closer to [END]. *)
Lemma steps_left_step (N : nat) (n : node) (st : gstate) (n' : node) (st' : gstate) :
  1 <= N -> config_inv N n st -> n <> NEnd -> step config gen n st = Ok (n', st') ->
  S (steps_left N n' (current_phase st') (current_round st')) =
  steps_left N n (current_phase st) (current_round st).
Proof.
  intros HN [Hmax Hsh] Hn Hst. apply step_ok in Hst as (u & Hu & -> & ->).
  destruct st as [tp0 mr ph r h v]; cbn in Hmax, Hsh; subst mr.
  remember (map turn_key h) as K eqn:HK. remember (is_some v) as b eqn:Hb.
  revert Hu HK Hb. destruct Hsh; intros Hu HK Hb; cbn [exec_node] in Hu;
    [ agent_step Hu | agent_step Hu | injection Hu as <-
    | agent_step Hu | agent_step Hu | injection Hu as <- | injection Hu as <-
    | agent_step Hu | agent_step Hu | apply judge_node_ok in Hu as (c & v' & ->)
    | now elim Hn ];
    cbn; try (destruct (Nat.leb_spec N r)); cbn; lia.
Qed.

Lemma run_done_fuel (N : nat) :
  1 <= N -> forall fuel n st st', config_inv N n st ->
  run config gen fuel n st = Done st' ->
  steps_left N n (current_phase st) (current_round st) <= fuel.
Proof.
  intros HN. induction fuel as [|f IH]; intros n st st' Hinv Hrun.
  - destruct n; cbn [run] in Hrun; try discriminate. cbn. lia.
  - destruct n; [ | | | | | | cbn; lia ]; cbn [run] in Hrun;
      (destruct (step config gen _ st) as [[n' s']|e] eqn:Hs; [|discriminate]);
      (rewrite <- (steps_left_step N _ st n' s' HN Hinv ltac:(discriminate) Hs);
       pose proof (IH n' s' st' (config_inv_step config gen N _ st n' s' HN Hinv Hs) Hrun);
       lia).
Qed.

Section Answers.
(** The model answers every call within the retries. *)
Hypothesis answers :
  forall st r p, exists j a, j <= max_retries config /\ gen st r p j = Ok a.

Lemma invoke_ok (st : gstate) (r : role) (p : string) :
  exists a, invoke_agent config gen st r p = Ok a.
Proof.
  unfold invoke_agent.
  destruct (wrapper_returns (gen st r p) (max_retries config) (answers st r p))
    as (a & c & ->).
  eauto.
Qed.

Ltac invoke_ok_rw :=
  match goal with
  | |- context [invoke_agent config gen ?s ?r ?p] =>
      let a := fresh "a" in destruct (invoke_ok s r p) as [a ->]
  end.

Lemma step_total (N : nat) (n : node) (st : gstate) :
  config_inv N n st -> n <> NEnd -> exists n' st', step config gen n st = Ok (n', st').
Proof.
  intros [_ Hsh] Hn.
  enough (Hex : exists u, exec_node config gen n st = Ok u).
  { destruct Hex as [u Hu]. unfold step. rewrite Hu. eauto. }
  destruct st as [tp0 mr ph r h v]; cbn in Hsh.
  remember (map turn_key h) as K eqn:HK. remember (is_some v) as b eqn:Hb.
  revert HK Hb. destruct Hsh; intros HK Hb; cbn [exec_node];
    try (now elim Hn); try (eexists; reflexivity);
    unfold proponent_node, opposition_node, judge_node, debater_update;
    invoke_ok_rw; cbn;
    try (destruct (judge_winner_confidence _)); eexists; reflexivity.
Qed.

Lemma run_not_failed (N : nat) :
  1 <= N -> forall fuel n st e st', config_inv N n st ->
  run config gen fuel n st <> Failed e st'.
Proof.
  intros HN. induction fuel as [|f IH]; intros n st e st' Hinv.
  - destruct n; discriminate.
  - destruct n as [| | | | | |]; [ | | | | | | discriminate ];
      (destruct (step_total N _ st Hinv ltac:(discriminate)) as (n' & s' & Hs);
       cbn [run]; rewrite Hs;
       exact (IH n' s' e st' (config_inv_step config gen N _ st n' s' HN Hinv Hs))).
Qed.

Lemma run_completes (N : nat) :
  1 <= N -> forall fuel n st, config_inv N n st ->
  steps_left N n (current_phase st) (current_round st) <= fuel ->
  exists st', run config gen fuel n st = Done st'.
Proof.
  intros HN. induction fuel as [|f IH]; intros n st Hinv Hle.
  - pose proof (steps_left_pos N n (current_phase st) (current_round st)) as Hpos.
    destruct n; [ | | | | | | eexists; reflexivity ];
      specialize (Hpos ltac:(discriminate)); lia.
  - destruct n as [| | | | | |]; [ | | | | | | eexists; reflexivity ];
      (destruct (step_total N _ st Hinv ltac:(discriminate)) as (n' & s' & Hs);
       cbn [run]; rewrite Hs;
       apply (IH n' s' (config_inv_step config gen N _ st n' s' HN Hinv Hs));
       rewrite <- (steps_left_step N _ st n' s' HN Hinv ltac:(discriminate) Hs) in Hle;
       lia).
Qed.

Lemma invoke_limited_not_failed (N : nat) :
  1 <= N -> forall limit n st e st', config_inv N n st ->
  invoke_limited config gen limit n st <> Failed e st'.
Proof.
  intros HN. induction limit as [|f IH]; intros n st e st' Hinv; [discriminate|].
  destruct n as [| | | | | |]; [ | | | | | | discriminate ];
    (destruct (step_total N _ st Hinv ltac:(discriminate)) as (n' & s' & Hs);
     cbn [invoke_limited]; rewrite Hs;
     exact (IH n' s' e st' (config_inv_step config gen N _ st n' s' HN Hinv Hs))).
Qed.

End Answers.

(** Under a [recursion_limit] of [S f] a run completes exactly when
    [run] completes with a budget of [f] supersteps. *)
Lemma invoke_limited_done (f : nat) :
  forall n st st',
  invoke_limited config gen (S f) n st = Done st' <-> run config gen f n st = Done st'.
Proof.
  induction f as [|f IH]; intros n st st';
    (destruct n; cbn [invoke_limited run]; [ | | | | | | apply iff_refl ]);
    (destruct (step config gen _ st) as [[n' s']|e];
     [ try apply IH | ]; split; intros H; discriminate H).
Qed.

(** A debate with [max_rounds = N >= 1] completes under a
    [recursion_limit] only if the limit is at least [3 N + 7]: the
    [3 N + 6] node executions plus LangGraph's check before it finds
    [END]; and when the model answers every call within [max_retries]
    retries, a limit of at least [3 N + 7] always lets it complete,
    while a smaller one always raises [GraphRecursionError] (never a
    node error). *)
Theorem debate_needs_recursion_limit_3N_plus_7 (topic0 : string) (N limit : nat) :
  1 <= N ->
  (forall st, invoke_limited config gen limit NProponent (initial_state topic0 N) = Done st ->
     3 * N + 7 <= limit) /\
  ((forall st r p, exists j a, j <= max_retries config /\ gen st r p j = Ok a) ->
   (3 * N + 7 <= limit ->
      exists st, invoke_limited config gen limit NProponent (initial_state topic0 N) = Done st) /\
   (limit <= 3 * N + 6 ->
      exists n st, invoke_limited config gen limit NProponent (initial_state topic0 N) =
                   OutOfSteps n st)).
Proof.
  intros HN.
  assert (Hinv : config_inv N NProponent (initial_state topic0 N))
    by (split; [reflexivity | apply shape_open_p]).
  assert (Hdone : forall st,
            invoke_limited config gen limit NProponent (initial_state topic0 N) = Done st ->
            3 * N + 7 <= limit).
  { intros st Hr. destruct limit as [|f]; [discriminate Hr|].
    apply invoke_limited_done in Hr.
    assert (Hf : 3 * N + 6 <= f) by exact (run_done_fuel N HN f _ _ st Hinv Hr).
    lia. }
  split; [exact Hdone|]. intros Hans. split.
  - intros Hle. destruct limit as [|f]; [lia|].
    assert (Hf : steps_left N NProponent (current_phase (initial_state topic0 N))
                   (current_round (initial_state topic0 N)) <= f)
      by (change (3 * N + 6 <= f); lia).
    destruct (run_completes Hans N HN f _ _ Hinv Hf) as [st Hst].
    exists st. apply invoke_limited_done. exact Hst.
  - intros Hlt.
    destruct (invoke_limited config gen limit NProponent (initial_state topic0 N))
      as [st|e st|n st] eqn:Hr.
    + pose proof (Hdone st eq_refl). lia.
    + elim (invoke_limited_not_failed Hans N HN limit _ _ e st Hinv Hr).
    + eauto.
Qed.

End Steps.

Lemma sample_answers :
  forall st r p, exists j a, j <= max_retries sample_config /\ sample_gen st r p j = Ok a.
Proof. intros st r p. eexists 2, _. split; [cbn; lia | reflexivity]. Qed.

(** [max_rounds = 2]: a limit of 13 completes, a limit of 12 raises
    after all 12 nodes have run; under the default limit 25 of
    [run_debate], 6 rounds complete and 7 rounds raise. *)
Lemma debate_needs_recursion_limit_3N_plus_7_witness :
  1 <= 2 /\ 1 <= 6 /\ 1 <= 7 /\
  (exists st, invoke_limited sample_config sample_gen 13 NProponent
                (initial_state "Cities should ban cars" 2) = Done st) /\
  (exists n st, invoke_limited sample_config sample_gen 12 NProponent
                  (initial_state "Cities should ban cars" 2) = OutOfSteps n st) /\
  (exists st, invoke_limited sample_config sample_gen 12 NProponent
                (initial_state "Cities should ban cars" 2) = OutOfSteps NEnd st) /\
  (exists st, invoke_limited sample_config sample_gen 25 NProponent
                (initial_state "Cities should ban cars" 6) = Done st) /\
  (exists n st, invoke_limited sample_config sample_gen 25 NProponent
                  (initial_state "Cities should ban cars" 7) = OutOfSteps n st).
Proof.
  assert (H2 : 1 <= 2) by lia. assert (H6 : 1 <= 6) by lia. assert (H7 : 1 <= 7) by lia.
  destruct (debate_needs_recursion_limit_3N_plus_7 sample_config sample_gen
              "Cities should ban cars" 2 13 H2) as [_ H13].
  destruct (debate_needs_recursion_limit_3N_plus_7 sample_config sample_gen
              "Cities should ban cars" 2 12 H2) as [_ H12].
  destruct (debate_needs_recursion_limit_3N_plus_7 sample_config sample_gen
              "Cities should ban cars" 6 25 H6) as [_ H25a].
  destruct (debate_needs_recursion_limit_3N_plus_7 sample_config sample_gen
              "Cities should ban cars" 7 25 H7) as [_ H25b].
  split; [exact H2|]. split; [exact H6|]. split; [exact H7|].
  split; [apply (proj1 (H13 sample_answers)); lia|].
  split; [apply (proj2 (H12 sample_answers)); lia|].
  split; [eexists; vm_compute; reflexivity|].
  split; [apply (proj1 (H25a sample_answers)); lia|].
  apply (proj2 (H25b sample_answers)); lia.
Defined.

End GraphStepFacts.

(* ================================================================== *)
(** ** What the nodes write: turn lengths and the verdict *)

Module GraphContentFacts.
Import Text Retry Extract Models Prompts Debate DebateFacts.
Local Open Scope nat_scope.
Local Open Scope list_scope.

Section Content.
Context {E : Type}.
Variable config : DebateConfig.
Variable gen : gstate -> role -> string -> nat -> outcome string E.

Definition verdict_ok (v : verdict_dict) (h : list turn) : Prop :=
  In (winner v) ["proponent"; "opposition"; "tie"] /\
  In (confidence v) ["high"; "medium"; "low"] /\
  summary v = ("The " ++ winner v ++ " wins with " ++ confidence v ++ " confidence.")%string /\
  In (mkTurn Judge TVerdict 0 (reasoning v)) h.

Lemma exec_node_content (n : node) (st : gstate) (u : update) :
  exec_node config gen n st = Ok u ->
  (forall t, In t (u_history u) -> role_of t <> Judge ->
     word_count t <= max_response_length config) /\
  (forall v, u_verdict u = Some v -> verdict_ok v (u_history u)).
Proof.
  intros H. destruct n; cbn [exec_node] in H.
  1,2: unfold proponent_node, opposition_node, debater_update in H;
    (destruct (invoke_agent config gen _ _ _) as [raw|e]; [|discriminate]);
    (destruct (turn_phase_of (current_phase st)) as [tp|]; [|discriminate]);
    injection H as <-; split;
    [ intros t [<-|[]] _; unfold word_count; cbn [content];
      apply TextMoreFacts.truncate_count_le
    | intros v Hv; discriminate Hv ].
  2-5: injection H as <-; split; [intros t [] | intros v Hv; discriminate Hv].
  unfold judge_node in H.
  destruct (invoke_agent config gen _ _ _) as [raw|e]; [|discriminate].
  pose proof (ExtractLiteralFacts.extraction_literals (clean_response raw))
    as (_ & _ & Hw & Hc).
  destruct (judge_winner_confidence (clean_response raw)) as [w c].
  cbn [fst snd] in Hw, Hc. injection H as <-. split.
  - intros t [<-|[]] Hj. now elim Hj.
  - intros v Hv. injection Hv as <-. unfold verdict_ok. cbn.
    repeat split; auto.
Qed.

Lemma reachable_content (topic0 : string) (N : nat) (n : node) (st : gstate) :
  reachable config gen topic0 N n st ->
  (forall t, In t (history st) -> role_of t <> Judge ->
     word_count t <= max_response_length config) /\
  (forall v, verdict st = Some v -> verdict_ok v (history st)).
Proof.
  induction 1 as [|n st n' st' Hr [IHw IHv] Hst].
  - split; [intros t [] | intros v Hv; discriminate Hv].
  - apply step_ok in Hst as (u & Hu & -> & _).
    destruct (exec_node_content n st u Hu) as [Hw Hv].
    cbn [apply_update history verdict]. split.
    + intros t Ht. apply in_app_iff in Ht as [Ht|Ht]; auto.
    + intros v. destruct (u_verdict u) as [v'|] eqn:Ev.
      * intros Heq. injection Heq as <-.
        destruct (Hv v' eq_refl) as (H1 & H2 & H3 & H4).
        repeat split; auto. apply in_or_app. right. exact H4.
      * intros Hs. destruct (IHv v Hs) as (H1 & H2 & H3 & H4).
        repeat split; auto. apply in_or_app. left. exact H4.
Qed.

(** In every state a run passes through, every proponent and opposition
    turn has at most [max_response_length] words ([count_words] of its
    content): the debater nodes truncate every answer to that length. *)
Theorem debater_turns_within_length (topic0 : string) (N : nat) (n : node) (st : gstate) :
  reachable config gen topic0 N n st ->
  forall t, In t (history st) -> role_of t <> Judge ->
  word_count t <= max_response_length config.
Proof. intros Hr. exact (proj1 (reachable_content topic0 N n st Hr)). Qed.

(** In every state a run passes through, a verdict, once set, has a
    winner among ["proponent"], ["opposition"], ["tie"], a confidence
    among ["high"], ["medium"], ["low"], the summary
    ["The <winner> wins with <confidence> confidence."], and its
    reasoning is the content of a judge turn (verdict phase, round 0) of
    the history. *)
Theorem verdict_fields_well_formed (topic0 : string) (N : nat) (n : node) (st : gstate)
    (v : verdict_dict) :
  reachable config gen topic0 N n st -> verdict st = Some v ->
  In (winner v) ["proponent"; "opposition"; "tie"] /\
  In (confidence v) ["high"; "medium"; "low"] /\
  summary v = ("The " ++ winner v ++ " wins with " ++ confidence v ++ " confidence.")%string /\
  In (mkTurn Judge TVerdict 0 (reasoning v)) (history st).
Proof. intros Hr Hv. exact (proj2 (reachable_content topic0 N n st Hr) v Hv). Qed.

End Content.

Lemma debater_turns_within_length_witness :
  reachable sample_config sample_gen "Cities should ban cars" 2 NEnd
    (final_state (sample_run 2)) /\
  Forall (fun t => role_of t <> Judge -> word_count t <= 100)
         (history (final_state (sample_run 2))).
Proof.
  split; [exact sample_final_reachable|]. apply Forall_forall. intros t Ht.
  exact (debater_turns_within_length sample_config sample_gen
           "Cities should ban cars" 2 NEnd (final_state (sample_run 2))
           sample_final_reachable t Ht).
Defined.

Lemma verdict_fields_well_formed_witness :
  reachable sample_config sample_gen "Cities should ban cars" 2 NEnd
    (final_state (sample_run 2)) /\
  verdict (final_state (sample_run 2)) <> None /\
  forall v, verdict (final_state (sample_run 2)) = Some v ->
  In (winner v) ["proponent"; "opposition"; "tie"].
Proof.
  split; [exact sample_final_reachable|]. split; [vm_compute; discriminate|].
  intros v Hv.
  exact (proj1 (verdict_fields_well_formed sample_config sample_gen
           "Cities should ban cars" 2 NEnd (final_state (sample_run 2)) v
           sample_final_reachable Hv)).
Defined.

End GraphContentFacts.

(* ================================================================== *)
(** ** Completed runs as the callers see them *)

Module CompletedRunFacts.
Import Text Retry Extract Models Prompts Debate DebateFacts UiFlow Stream StateHelpers.
Local Open Scope nat_scope.
Local Open Scope list_scope.

Lemma length_debate_keys (N : nat) : length (debate_keys N) = 2 * N + 5.
Proof.
  unfold debate_keys, debate_pairs.
  rewrite length_app, length_pair_keys. cbn [length].
  rewrite length_app, length_map, length_seq. cbn [length]. lia.
Qed.

Lemma pair_keys_rebuttals (f : turn_phase * nat * role -> string * string * nat)
      (l : list nat) :
  map f (pair_keys (map (fun r => (TRebuttal, r)) l)) =
  flat_map (fun r => [f (TRebuttal, r, Proponent); f (TRebuttal, r, Opposition)]) l.
Proof.
  unfold pair_keys. induction l as [|i l IH]; [reflexivity|].
  cbn [map flat_map app]. now rewrite IH.
Qed.

Section Completed.
Context {E : Type}.
Variable config : DebateConfig.
Variable gen : gstate -> role -> string -> nat -> outcome string E.

Lemma done_keys (topic0 : string) (N fuel : nat) (st : gstate) :
  1 <= N ->
  run config gen fuel NProponent (initial_state topic0 N) = Done st ->
  max_rounds st = N /\ map turn_key (history st) = debate_keys N /\
  reachable config gen topic0 N NEnd st.
Proof.
  intros HN Hrun.
  pose proof (run_done_reachable config gen topic0 N fuel _ _ _ (reachable_init _ _ _ _) Hrun)
    as Hr.
  destruct (config_inv_reachable config gen topic0 N _ _ HN Hr) as [Hmax Hsh].
  apply shape_end_keys in Hsh as (Hkeys & _ & _). auto.
Qed.

(** For [max_rounds = N >= 1], the turns of a completed run are, one
    for one, the entries [(role, phase, round)] of the [debate_flow]
    list [run_debate_with_ui] builds to announce the next speaker. *)
Theorem completed_run_follows_debate_flow (topic0 : string) (N fuel : nat) (st : gstate) :
  1 <= N ->
  run config gen fuel NProponent (initial_state topic0 N) = Done st ->
  map turn_entry (history st) = debate_flow N.
Proof.
  intros HN Hrun. destruct (done_keys topic0 N fuel st HN Hrun) as (_ & Hkeys & _).
  set (f := fun k : turn_phase * nat * role =>
              (role_str (snd k), turn_phase_str (fst (fst k)), snd (fst k))).
  assert (Hf : map turn_entry (history st) = map f (map turn_key (history st))).
  { rewrite map_map. reflexivity. }
  rewrite Hf, Hkeys. unfold debate_keys, debate_pairs, debate_flow.
  rewrite map_app, app_comm_cons, pair_keys_app, map_app.
  change (pair_keys ((TOpening, 0) :: ?l)) with
    ([(TOpening, 0, Proponent); (TOpening, 0, Opposition)] ++ pair_keys l).
  rewrite map_app, pair_keys_rebuttals. subst f.
  cbn [pair_keys flat_map map app fst snd role_str turn_phase_str].
  rewrite <- !app_assoc. reflexivity.
Qed.

End Completed.

Lemma completed_run_follows_debate_flow_witness :
  1 <= 2 /\
  run sample_config sample_gen 25 NProponent (initial_state "Cities should ban cars" 2) =
    Done (final_state (sample_run 2)) /\
  map turn_entry (history (final_state (sample_run 2))) = debate_flow 2.
Proof.
  assert (HN : 1 <= 2) by lia.
  split; [exact HN|]. split; [exact sample_run_done|].
  exact (completed_run_follows_debate_flow sample_config sample_gen
           "Cities should ban cars" 2 25 (final_state (sample_run 2)) HN sample_run_done).
Defined.

End CompletedRunFacts.

(* ================================================================== *)
(** ** [stream_debate] against [run_debate]; [run_streaming] *)

Module StreamFacts.
Import Text Retry Extract Models Prompts Debate DebateFacts Stream CompletedRunFacts.
Local Open Scope nat_scope.
Local Open Scope list_scope.

Lemma fold_apply_history (us : list update) :
  forall st, history (fold_left apply_update us st) = history st ++ flat_map u_history us.
Proof.
  induction us as [|u us IH]; intros st; cbn [fold_left flat_map].
  - now rewrite app_nil_r.
  - rewrite IH. cbn [apply_update history]. now rewrite app_assoc.
Qed.

Lemma streamed_turns_map (events : list (node * update)) :
  streamed_turns events = flat_map u_history (map snd events).
Proof.
  unfold streamed_turns. induction events as [|ev evs IH]; [reflexivity|].
  cbn [flat_map map]. now rewrite IH.
Qed.

Lemma run_streaming_final_last (pre : list (node * update)) (u : update) :
  run_streaming_final (pre ++ [(NJudge, u)]) = Some u.
Proof. unfold run_streaming_final. now rewrite fold_left_app. Qed.

Section Streams.
Context {E : Type}.
Variable config : DebateConfig.
Variable gen : gstate -> role -> string -> nat -> outcome string E.

Lemma stream_run (fuel : nat) :
  forall n st,
  snd (stream config gen fuel n st) = run config gen fuel n st /\
  final_state (run config gen fuel n st) =
    fold_left apply_update (map snd (fst (stream config gen fuel n st))) st.
Proof.
  induction fuel as [|f IH]; intros n st.
  - destruct n; split; reflexivity.
  - destruct n; [ | | | | | | split; reflexivity ];
      cbn [stream run]; unfold step;
      (match goal with |- context [exec_node config gen ?m st] =>
         destruct (exec_node config gen m st) as [u|e]; [|split; reflexivity];
         destruct (IH (next_node m (apply_update st u)) (apply_update st u)) as [H1 H2];
         destruct (stream config gen f (next_node m (apply_update st u)) (apply_update st u))
           as [evs res]
       end);
      cbn [fst snd map fold_left] in H1, H2 |- *; (split; [exact H1 | exact H2]).
Qed.

(** [stream_debate] runs the same supersteps as [run_debate]: it ends
    the same way, the final state is the initial state with the
    streamed updates applied in order, and the turns [run_streaming]
    prints are exactly the turns the final history adds. *)
Theorem stream_matches_run (fuel : nat) (n : node) (st : gstate) :
  snd (stream config gen fuel n st) = run config gen fuel n st /\
  final_state (run config gen fuel n st) =
    fold_left apply_update (map snd (fst (stream config gen fuel n st))) st /\
  history (final_state (run config gen fuel n st)) =
    history st ++ streamed_turns (fst (stream config gen fuel n st)).
Proof.
  destruct (stream_run fuel n st) as [H1 H2].
  split; [exact H1 | split; [exact H2|]].
  rewrite H2, fold_apply_history, streamed_turns_map. reflexivity.
Qed.

Lemma step_to_end (N : nat) (n : node) (st : gstate) (st' : gstate) :
  config_inv N n st -> n <> NEnd -> step config gen n st = Ok (NEnd, st') -> n = NJudge.
Proof.
  intros [_ Hsh] Hn Hst. apply step_ok in Hst as (u & Hu & -> & Hnext).
  destruct st as [tp0 mr ph r h v]; cbn in Hsh.
  remember (map turn_key h) as K eqn:HK. remember (is_some v) as b eqn:Hb.
  revert Hu Hnext HK Hb. destruct Hsh; intros Hu Hnext HK Hb; cbn [exec_node] in Hu;
    try reflexivity; try (now elim Hn);
    try (injection Hu as <-; cbn in Hnext; discriminate Hnext);
    unfold proponent_node, opposition_node in Hu;
    apply debater_update_ok in Hu as (tp' & c & _ & ->);
    cbn [next_node route_after_opposition apply_update current_phase max_rounds
         current_round u_phase u_round] in Hnext;
    try discriminate Hnext;
    destruct (Nat.leb mr r); discriminate Hnext.
Qed.

Lemma stream_done_judge (N : nat) :
  1 <= N -> forall fuel n st evs st',
  config_inv N n st ->
  stream config gen fuel n st = (evs, Done st') ->
  (n = NEnd /\ evs = [] /\ st' = st) \/
  (exists pre u c v, evs = pre ++ [(NJudge, u)] /\
     u = mkUpdate [mkTurn Judge TVerdict 0 c] (Some Complete) None (Some v) /\
     verdict st' = Some v /\
     exists h0, history st' = h0 ++ [mkTurn Judge TVerdict 0 c]).
Proof.
  intros HN. induction fuel as [|f IH]; intros n st evs st' Hinv Hs.
  - destruct n; cbn in Hs; try discriminate. injection Hs as <- <-. left; auto.
  - destruct n; [ | | | | | | cbn in Hs; injection Hs as <- <-; left; auto ];
      right; cbn [stream] in Hs;
      (match type of Hs with context [exec_node config gen ?m st] =>
         destruct (exec_node config gen m st) as [u|e] eqn:Hu; [|discriminate];
         assert (Hstep : step config gen m st =
                           Ok (next_node m (apply_update st u), apply_update st u))
           by (unfold step; rewrite Hu; reflexivity);
         destruct (stream config gen f (next_node m (apply_update st u)) (apply_update st u))
           as [evs1 res] eqn:Hs1;
         injection Hs as <- ->;
         destruct (IH _ _ evs1 st' (config_inv_step config gen N m st _ _ HN Hinv Hstep) Hs1)
           as [(Hend & -> & ->) | (pre & u' & c & v & -> & Hu' & Hv & Hh)];
         [ rewrite Hend in Hstep;
           pose proof (step_to_end N m st _ Hinv ltac:(discriminate) Hstep) as Hj;
           try discriminate Hj
         | exists ((m, u) :: pre), u', c, v;
           split; [reflexivity | split; [exact Hu' | split; [exact Hv | exact Hh]]] ]
       end).
  all: cbn [exec_node] in Hu; apply judge_node_ok in Hu as (c & v & ->).
  all: exists [], (mkUpdate [mkTurn Judge TVerdict 0 c] (Some Complete) None (Some v)), c, v.
  all: split; [reflexivity | split; [reflexivity | split; [reflexivity|]]].
  all: exists (history st); reflexivity.
Qed.

(** For [max_rounds = N >= 1], when [stream_debate] reaches [END], the
    output [run_streaming] keeps (that of the last ["judge"] event) holds
    exactly one turn, the judge's, which is the last turn of the final
    history, and the verdict it prints is the final state's verdict. *)
Theorem run_streaming_keeps_judge_output (topic0 : string) (N fuel : nat)
    (events : list (node * update)) (st : gstate) :
  1 <= N ->
  stream config gen fuel NProponent (initial_state topic0 N) = (events, Done st) ->
  exists u c v,
    run_streaming_final events = Some u /\
    u_history u = [mkTurn Judge TVerdict 0 c] /\
    u_verdict u = Some v /\ verdict st = Some v /\
    exists h0, history st = h0 ++ u_history u.
Proof.
  intros HN Hs.
  assert (Hinv : config_inv N NProponent (initial_state topic0 N))
    by (split; [reflexivity | apply shape_open_p]).
  destruct (stream_done_judge N HN fuel _ _ events st Hinv Hs)
    as [(Hn & _ & _) | (pre & u & c & v & -> & -> & Hv & h0 & Hh)]; [discriminate Hn|].
  exists (mkUpdate [mkTurn Judge TVerdict 0 c] (Some Complete) None (Some v)), c, v.
  rewrite run_streaming_final_last. cbn [u_history u_verdict].
  repeat split; auto. exists h0. exact Hh.
Qed.

End Streams.

Lemma sample_stream_done :
  stream sample_config sample_gen 25 NProponent (initial_state "Cities should ban cars" 2) =
  (fst (stream sample_config sample_gen 25 NProponent
          (initial_state "Cities should ban cars" 2)),
   Done (final_state (sample_run 2))).
Proof. vm_compute. reflexivity. Qed.

Lemma run_streaming_keeps_judge_output_witness :
  1 <= 2 /\
  exists u c v,
    run_streaming_final (fst (stream sample_config sample_gen 25 NProponent
                               (initial_state "Cities should ban cars" 2))) = Some u /\
    u_history u = [mkTurn Judge TVerdict 0 c] /\
    u_verdict u = Some v /\ verdict (final_state (sample_run 2)) = Some v /\
    exists h0, history (final_state (sample_run 2)) = h0 ++ u_history u.
Proof.
  assert (HN : 1 <= 2) by lia. split; [exact HN|].
  exact (run_streaming_keeps_judge_output sample_config sample_gen
           "Cities should ban cars" 2 25 _ _ HN sample_stream_done).
Defined.

End StreamFacts.

(* ================================================================== *)
(** ** [print_debate_summary] and [run_debate] on completed runs *)

Module SummaryFacts.
Import Text Retry Extract Models Prompts Debate DebateFacts StateHelpers Settings
       CompletedRunFacts.
Local Open Scope nat_scope.
Local Open Scope list_scope.

Lemma filter_pair_keys (gr : role -> bool) (ps : list (turn_phase * nat)) :
  length (filter (fun k => gr (snd k)) (pair_keys ps)) =
  length ps * (Nat.b2n (gr Proponent) + Nat.b2n (gr Opposition)).
Proof.
  induction ps as [|[p r] ps IH]; [reflexivity|].
  change (pair_keys ((p, r) :: ps)) with
    ([(p, r, Proponent); (p, r, Opposition)] ++ pair_keys ps).
  rewrite filter_app, length_app, IH. cbn [length filter snd].
  destruct (gr Proponent), (gr Opposition); cbn [length Nat.b2n]; lia.
Qed.

Lemma filter_map_length {X Y : Type} (f : X -> Y) (g : Y -> bool) (l : list X) :
  length (filter (fun x => g (f x)) l) = length (filter g (map f l)).
Proof.
  induction l as [|x l IH]; [reflexivity|]. cbn. destruct (g (f x)); cbn; lia.
Qed.

Lemma role_count_keys (gr : role -> bool) (N : nat) :
  length (filter (fun k => gr (snd k)) (debate_keys N)) =
  (N + 2) * (Nat.b2n (gr Proponent) + Nat.b2n (gr Opposition)) + Nat.b2n (gr Judge).
Proof.
  unfold debate_keys. rewrite filter_app, length_app, filter_pair_keys.
  unfold debate_pairs. cbn [length]. rewrite length_app, length_map, length_seq.
  cbn [length filter snd]. destruct (gr Judge); cbn [length Nat.b2n]; lia.
Qed.

Lemma list_sum_bound (l : list nat) (m : nat) :
  Forall (fun x => x <= m) l -> list_sum l <= length l * m.
Proof.
  induction 1 as [|x l Hx _ IH]; [cbn; lia|].
  change (list_sum (x :: l)) with (x + list_sum l). cbn [length]. lia.
Qed.

Lemma settings_valid_iff (s : settings) :
  settings_valid s = true <->
  (1 <= cfg_max_rounds s <= 10 /\ 100 <= cfg_max_response_length s <= 2000 /\
   1 <= cfg_max_retries s <= 5)%Z.
Proof. unfold settings_valid. rewrite !andb_true_iff, !Z.leb_le. tauto. Qed.

Section Summary.
Context {E : Type}.
Variable config : DebateConfig.
Variable gen : gstate -> role -> string -> nat -> outcome string E.

Lemma role_turns_length (topic0 : string) (N fuel : nat) (st : gstate) (r : role) :
  1 <= N ->
  run config gen fuel NProponent (initial_state topic0 N) = Done st ->
  length (get_turns_by_role (history st) (role_str r)) =
  match r with Judge => 1 | _ => N + 2 end.
Proof.
  intros HN Hrun. destruct (done_keys config gen topic0 N fuel st HN Hrun) as (_ & Hkeys & _).
  unfold get_turns_by_role.
  rewrite (filter_map_length turn_key (fun k => String.eqb (role_str (snd k)) (role_str r))),
    Hkeys, (role_count_keys (fun ro => String.eqb (role_str ro) (role_str r))).
  destruct r; cbn; lia.
Qed.

Lemma role_words_bound (topic0 : string) (N : nat) (n : node) (st : gstate) (r : role) :
  reachable config gen topic0 N n st -> r <> Judge ->
  list_sum (map word_count (get_turns_by_role (history st) (role_str r))) <=
  length (get_turns_by_role (history st) (role_str r)) * max_response_length config.
Proof.
  intros Hr Hrj. rewrite <- (length_map word_count).
  apply list_sum_bound. apply Forall_forall. intros x Hx.
  apply in_map_iff in Hx as (t & <- & Ht). unfold get_turns_by_role in Ht.
  apply filter_In in Ht as [Ht Hrole].
  apply (proj1 (GraphContentFacts.reachable_content config gen topic0 N n st Hr) t Ht).
  intros Hj. rewrite Hj in Hrole. destruct r; [discriminate Hrole | discriminate Hrole | now elim Hrj].
Qed.

(** For [max_rounds = N >= 1], the summary [print_debate_summary]
    prints for a completed run counts [2 N + 5] turns, of which [N + 2]
    are the proponent's and [N + 2] the opposition's, and each side's
    word total is at most [(N + 2) * max_response_length]. *)
Theorem completed_run_summary (topic0 : string) (N fuel : nat) (st : gstate) :
  1 <= N ->
  run config gen fuel NProponent (initial_state topic0 N) = Done st ->
  let '(total, proponent_words, opposition_words) := debate_summary (history st) in
  total = 2 * N + 5 /\
  length (get_turns_by_role (history st) "proponent") = N + 2 /\
  length (get_turns_by_role (history st) "opposition") = N + 2 /\
  proponent_words <= (N + 2) * max_response_length config /\
  opposition_words <= (N + 2) * max_response_length config.
Proof.
  intros HN Hrun. unfold debate_summary, role_words.
  destruct (done_keys config gen topic0 N fuel st HN Hrun) as (_ & Hkeys & Hr).
  pose proof (role_turns_length topic0 N fuel st Proponent HN Hrun) as Hp.
  pose proof (role_turns_length topic0 N fuel st Opposition HN Hrun) as Ho.
  pose proof (role_words_bound topic0 N NEnd st Proponent Hr ltac:(discriminate)) as Hpw.
  pose proof (role_words_bound topic0 N NEnd st Opposition Hr ltac:(discriminate)) as How.
  cbn [role_str] in Hp, Hpw, Ho, How. rewrite Hp in Hpw. rewrite Ho in How.
  split; [|auto].
  rewrite <- (length_map turn_key), Hkeys. apply length_debate_keys.
Qed.

End Summary.

(** [run_debate] with a valid [config]: it fails with a validation
    error exactly when [max_rounds] is outside [1..10]; otherwise, when
    the graph reaches [END], the final state has [max_rounds] rounds and
    [2 * max_rounds + 5] turns. *)
Theorem run_debate_validates_rounds {E : Type}
    (gen : gstate -> role -> string -> nat -> outcome string E)
    (fuel : nat) (topic0 : string) (m : Z) (config : settings) :
  settings_valid config = true ->
  (run_debate gen fuel topic0 m config = ConfigValidationError <-> ~ (1 <= m <= 10)%Z) /\
  (forall st, run_debate gen fuel topic0 m config = GraphResult (Done st) ->
     max_rounds st = Z.to_nat m /\ length (history st) = 2 * Z.to_nat m + 5).
Proof.
  intros Hv. apply settings_valid_iff in Hv.
  assert (Hdone : forall c st,
            (1 <= cfg_max_rounds c)%Z ->
            GraphResult (run (node_config c) gen fuel NProponent
                           (initial_state topic0 (Z.to_nat (cfg_max_rounds c)))) =
            GraphResult (Done st) ->
            max_rounds st = Z.to_nat (cfg_max_rounds c) /\
            length (history st) = 2 * Z.to_nat (cfg_max_rounds c) + 5).
  { intros c st Hc Heq. injection Heq as Hrun.
    destruct (done_keys (node_config c) gen topic0 (Z.to_nat (cfg_max_rounds c)) fuel st
                ltac:(lia) Hrun)
      as (Hmax & Hkeys & _).
    split; [exact Hmax|]. rewrite <- (length_map turn_key), Hkeys.
    apply length_debate_keys. }
  unfold run_debate. destruct (Z.eqb_spec m (cfg_max_rounds config)) as [->|Hne].
  - split; [split; [discriminate | lia]|].
    intros st Heq. exact (Hdone config st ltac:(lia) Heq).
  - destruct (settings_valid (mkSettings m (cfg_max_response_length config)
                                (cfg_max_retries config))) eqn:Hc.
    + apply settings_valid_iff in Hc. cbn [cfg_max_rounds cfg_max_response_length
                                            cfg_max_retries] in Hc.
      split; [split; [discriminate | lia]|].
      intros st Heq.
      exact (Hdone (mkSettings m (cfg_max_response_length config) (cfg_max_retries config))
               st ltac:(cbn; lia) Heq).
    + split; [split; [intros _ | reflexivity]|intros st Heq; discriminate Heq].
      intros Hm. assert (Ht : settings_valid (mkSettings m (cfg_max_response_length config)
                                                (cfg_max_retries config)) = true)
        by (apply settings_valid_iff; cbn; lia).
      congruence.
Qed.

Lemma completed_run_summary_witness :
  1 <= 2 /\
  run sample_config sample_gen 25 NProponent (initial_state "Cities should ban cars" 2) =
    Done (final_state (sample_run 2)) /\
  fst (fst (debate_summary (history (final_state (sample_run 2))))) = 9.
Proof.
  assert (HN : 1 <= 2) by lia.
  split; [exact HN|]. split; [exact sample_run_done|].
  pose proof (completed_run_summary sample_config sample_gen "Cities should ban cars" 2 25
                (final_state (sample_run 2)) HN sample_run_done) as H.
  destruct (debate_summary (history (final_state (sample_run 2)))) as [[t p] o].
  exact (proj1 H).
Defined.

Lemma run_debate_validates_rounds_witness :
  settings_valid (mkSettings 3 500 3) = true /\
  run_debate sample_gen 25 "Cities should ban cars" 11 (mkSettings 3 500 3) =
    ConfigValidationError /\
  exists st, run_debate sample_gen 25 "Cities should ban cars" 2 (mkSettings 3 500 3) =
    GraphResult (Done st) /\ length (history st) = 9.
Proof.
  assert (Hv : settings_valid (mkSettings 3 500 3) = true) by reflexivity.
  split; [exact Hv|]. split.
  - apply (proj1 (run_debate_validates_rounds sample_gen 25 "Cities should ban cars"
                    11 (mkSettings 3 500 3) Hv)). lia.
  - set (st := final_state (run (mkConfig 500 3) sample_gen 25 NProponent
                              (initial_state "Cities should ban cars" 2))).
    assert (Hst : run_debate sample_gen 25 "Cities should ban cars" 2 (mkSettings 3 500 3) =
                  GraphResult (Done st)) by (vm_compute; reflexivity).
    exists st. split; [exact Hst|].
    exact (proj2 (proj2 (run_debate_validates_rounds sample_gen 25 "Cities should ban cars"
                           2 (mkSettings 3 500 3) Hv) st Hst)).
Defined.

End SummaryFacts.

(* ================================================================== *)
(** ** [phase_router] against the edges of [create_debate_graph] *)

Module RouterFacts.
Import Retry Models Debate DebateFacts Router Steps.
Local Open Scope nat_scope.
Local Open Scope list_scope.

Lemma py_last_map {X Y : Type} (f : X -> Y) (l : list X) :
  py_last (map f l) = option_map f (py_last l).
Proof. unfold py_last. rewrite <- map_rev. destruct (rev l); reflexivity. Qed.

Lemma py_last_snoc {X : Type} (l : list X) (x : X) : py_last (l ++ [x]) = Some x.
Proof. unfold py_last. now rewrite rev_app_distr. Qed.

Lemma keys_upto_last (r : nat) : exists p i, py_last (keys_upto r) = Some (p, i, Opposition).
Proof.
  destruct r as [|r]; [eexists _, _; reflexivity|].
  rewrite keys_upto_S.
  replace (keys_upto r ++ [(TRebuttal, S r, Proponent); (TRebuttal, S r, Opposition)])
    with ((keys_upto r ++ [(TRebuttal, S r, Proponent)]) ++ [(TRebuttal, S r, Opposition)])
    by now rewrite <- app_assoc.
  rewrite py_last_snoc. eauto.
Qed.

Lemma last_role_keys (h : list turn) :
  match py_last h with Some t => Some (role_of t) | None => None end =
  option_map (fun k => snd k) (py_last (map turn_key h)).
Proof. rewrite py_last_map. destruct (py_last h); reflexivity. Qed.

Section Router.
Context {E : Type}.
Variable config : DebateConfig.
Variable gen : gstate -> role -> string -> nat -> outcome string E.

(** [create_phase_router] is never wired into the graph, and it would
    route differently: in every state a run passes through it names the
    node the graph runs next, except when the graph is about to run the
    proponent of a rebuttal round or of the closing, where the router
    answers ["next_round"] or ["start_closing"] (rebuttal) and ["judge"]
    (closing), skipping the proponent's turn. *)
Theorem phase_router_vs_graph (topic0 : string) (N : nat) (n : node) (st : gstate) :
  1 <= N ->
  reachable config gen topic0 N n st ->
  (n = NProponent -> current_phase st = Rebuttal ->
     phase_router st =
       if Nat.leb N (current_round st) then "start_closing" else "next_round") /\
  (n = NProponent -> current_phase st = Closing -> phase_router st = "judge") /\
  (~ (n = NProponent /\ (current_phase st = Rebuttal \/ current_phase st = Closing)) ->
     phase_router st = node_name n).
Proof.
  intros HN Hr. destruct (config_inv_reachable config gen topic0 N _ _ HN Hr) as [Hmax Hsh].
  destruct st as [tp0 mr ph r h v]; cbn in Hmax, Hsh |- *; subst mr.
  unfold phase_router; cbn [history current_phase current_round max_rounds].
  rewrite last_role_keys.
  remember (map turn_key h) as K eqn:HK. remember (is_some v) as b eqn:Hb.
  clear HK Hb. destruct Hsh.
  - cbn. repeat split; intros; discriminate.
  - cbn. repeat split; intros; discriminate.
  - destruct (keys_upto_last 0) as (p & i & ->). cbn. repeat split; intros; discriminate.
  - destruct (keys_upto_last (pred r)) as (p & i & ->). cbn.
    split; [reflexivity|]. split; [intros _ Hc; discriminate Hc|].
    intros Hn. elim Hn. auto.
  - rewrite py_last_snoc. cbn. repeat split; intros; discriminate.
  - destruct (keys_upto_last r) as (p & i & ->). cbn.
    destruct (Nat.leb_spec N r); [lia|].
    repeat split; intros; discriminate.
  - destruct (keys_upto_last N) as (p & i & ->). cbn.
    rewrite Nat.leb_refl. repeat split; intros; discriminate.
  - destruct (keys_upto_last N) as (p & i & ->). cbn.
    split; [intros _ Hc; discriminate Hc|]. split; [reflexivity|].
    intros Hn. elim Hn. auto.
  - rewrite py_last_snoc. cbn. repeat split; intros; discriminate.
  - replace (keys_upto N ++ [(TClosing, 0, Proponent); (TClosing, 0, Opposition)])
      with ((keys_upto N ++ [(TClosing, 0, Proponent)]) ++ [(TClosing, 0, Opposition)])
      by now rewrite <- app_assoc.
    rewrite py_last_snoc. cbn. repeat split; intros; discriminate.
  - cbn. repeat split; intros; discriminate.
Qed.

End Router.

Lemma sample_rebuttal_reachable :
  exists st, reachable sample_config sample_gen "Cities should ban cars" 2 NProponent st /\
             current_phase st = Rebuttal /\ current_round st = 1.
Proof.
  set (s0 := initial_state "Cities should ban cars" 2).
  set (s1 := next_state sample_config sample_gen NProponent s0).
  set (s2 := next_state sample_config sample_gen NOpposition s1).
  set (s3 := next_state sample_config sample_gen NStartRebuttal s2).
  assert (H1 : step sample_config sample_gen NProponent s0 = Ok (NOpposition, s1))
    by (vm_compute; reflexivity).
  assert (H2 : step sample_config sample_gen NOpposition s1 = Ok (NStartRebuttal, s2))
    by (vm_compute; reflexivity).
  assert (H3 : step sample_config sample_gen NStartRebuttal s2 = Ok (NProponent, s3))
    by (vm_compute; reflexivity).
  exists s3. split; [|split; vm_compute; reflexivity].
  eapply reachable_step; [|exact H3].
  eapply reachable_step; [|exact H2].
  eapply reachable_step; [|exact H1].
  apply reachable_init.
Qed.

Lemma phase_router_vs_graph_witness :
  1 <= 2 /\
  exists st, reachable sample_config sample_gen "Cities should ban cars" 2 NProponent st /\
    current_phase st = Rebuttal /\ phase_router st = "next_round".
Proof.
  assert (HN : 1 <= 2) by lia. split; [exact HN|].
  destruct sample_rebuttal_reachable as (st & Hr & Hph & Hround).
  exists st. split; [exact Hr|]. split; [exact Hph|].
  rewrite (proj1 (phase_router_vs_graph sample_config sample_gen "Cities should ban cars"
                    2 NProponent st HN Hr) eq_refl Hph).
  rewrite Hround. reflexivity.
Defined.

End RouterFacts.

(* ================================================================== *)
(** ** The judge's prompt *)

Module JudgePromptFacts.
Import Text Models Prompts PromptFacts.

(** [build_judge_prompt] hands the judge the whole transcript: the topic
    and the content of every turn of the history appear verbatim in the
    prompt, with no truncation. *)
Theorem judge_prompt_has_full_transcript (topic : string) (history : list turn) :
  str_in topic (build_judge_prompt topic history) = true /\
  forall t, In t history -> str_in (content t) (build_judge_prompt topic history) = true.
Proof.
  unfold build_judge_prompt. cbv zeta. split.
  - apply str_in_after_header.
    eapply str_in_concat; [left; reflexivity|].
    do 3 apply str_in_app_r. apply str_in_app_l, str_in_self.
  - intros t Ht. apply str_in_after_header.
    eapply str_in_concat.
    + apply in_or_app. right. apply in_or_app. left. apply in_map. exact Ht.
    + apply str_in_section.
Qed.

End JudgePromptFacts.
